(** * A task list kept in the browser's localStorage: model of [script.js]

    The script is embedded function by function, as computations over an
    explicit world (storage, alerts, console, page) that may throw.  What
    the script calls but does not define -- strings, [JSON], [localStorage],
    [alert], [console], the clock, the page -- is modelled in the first part
    of the file, as little as the script needs.  [JSON] is an interface: the
    properties hold for every engine that satisfies the laws they name, and
    a reference engine that satisfies them runs the script on concrete
    stores.  The listeners that [init] installs appear as the actions of
    [perform]. *)

From Stdlib Require Import ZArith NArith Lia DecimalZ DecimalFacts.
From stdpp Require Import base option list gmap strings.

Set Warnings "-register-all".
Local Open Scope N_scope.

(** ** Strings

    A JavaScript string is a sequence of UTF-16 code units; [length] counts
    code units. *)

Definition jsstring : Type := list N.

(** The code units of an ASCII literal. *)
Definition lit (s : string) : jsstring :=
  map Ascii.N_of_ascii (String.list_ascii_of_string s).

(** [WhiteSpace] and [LineTerminator] code points of ECMAScript, the ones
    [String.prototype.trim] strips. *)
Definition is_white (c : N) : bool :=
  (c =? 0x0009) || (c =? 0x000a) || (c =? 0x000b) || (c =? 0x000c)
  || (c =? 0x000d) || (c =? 0x0020) || (c =? 0x00a0) || (c =? 0x1680)
  || ((0x2000 <=? c) && (c <=? 0x200a))
  || (c =? 0x2028) || (c =? 0x2029) || (c =? 0x202f) || (c =? 0x205f)
  || (c =? 0x3000) || (c =? 0xfeff).

Fixpoint trimStart (s : jsstring) : jsstring :=
  match s with
  | c :: s' => if is_white c then trimStart s' else s
  | [] => []
  end.

Definition trimEnd (s : jsstring) : jsstring := rev (trimStart (rev s)).

Definition trim (s : jsstring) : jsstring := trimEnd (trimStart s).

(** [s.substring(n)] for [n] within or past the end of [s]. *)
Definition substring (n : nat) (s : jsstring) : jsstring := drop n s.

(** ** Values *)

(** Numbers.  The script creates integral values only (epoch milliseconds,
    array lengths), all far below 2^53, where every integer is a double;
    the finite numbers of the model are the integers, with one zero.  The
    non-finite ones are kept because [JSON.stringify] treats them apart. *)
Inductive number : Type :=
  | Fin (z : Z)
  | NaN
  | Infinity (negative : bool).

Inductive JSValue : Type :=
  | JUndefined
  | JNull
  | JBool (b : bool)
  | JNum (n : number)
  | JStr (s : jsstring)
  | JArr (elements : list JSValue)
  | JObj (props : list (jsstring * JSValue)).

(** [ToBoolean]. *)
Definition truthy (v : JSValue) : bool :=
  match v with
  | JUndefined | JNull => false
  | JBool b => b
  | JNum (Fin z) => negb (z =? 0)%Z
  | JNum NaN => false
  | JNum (Infinity _) => true
  | JStr s => match s with [] => false | _ => true end
  | JArr _ | JObj _ => true
  end.

Definition number_eqb (a b : number) : bool :=
  match a, b with
  | Fin x, Fin y => (x =? y)%Z
  | Infinity x, Infinity y => Bool.eqb x y
  | _, _ => false
  end.

Definition jsstring_eqb (a b : jsstring) : bool := bool_decide (a = b).

(** [a === b].  Two objects or arrays are equal only when they are the same
    reference; the script compares a property of a freshly parsed task with
    a string, so no two operands ever share a reference. *)
Definition strict_eq (a b : JSValue) : bool :=
  match a, b with
  | JUndefined, JUndefined => true
  | JNull, JNull => true
  | JBool x, JBool y => Bool.eqb x y
  | JNum x, JNum y => number_eqb x y
  | JStr x, JStr y => jsstring_eqb x y
  | _, _ => false
  end.

(** Own properties of an object, in insertion order. *)
Fixpoint lookup_prop (k : jsstring) (ps : list (jsstring * JSValue)) : option JSValue :=
  match ps with
  | [] => None
  | (k', v) :: ps' => if jsstring_eqb k' k then Some v else lookup_prop k ps'
  end.

(** [o.k = v] on an object: overwrite in place, or add at the end. *)
Fixpoint assign_prop (k : jsstring) (v : JSValue) (ps : list (jsstring * JSValue))
  : list (jsstring * JSValue) :=
  match ps with
  | [] => [(k, v)]
  | (k', v') :: ps' =>
      if jsstring_eqb k' k then (k', v) :: ps' else (k', v') :: assign_prop k v ps'
  end.

(** ** Tasks *)

(** A task as [addTask] builds it, [createdAt] being a reading of the
    clock. *)
Record Task : Type := mkTask {
  id : jsstring;
  text : jsstring;
  completed : bool;
  createdAt : Z
}.

(** The object literal [{ id, text, completed, createdAt }]. *)
Definition task_literal (i t : jsstring) (c : bool) (n : number) : JSValue :=
  JObj [ (lit "id", JStr i); (lit "text", JStr t);
         (lit "completed", JBool c); (lit "createdAt", JNum n) ].

Definition task_object (t : Task) : JSValue :=
  task_literal (id t) (text t) (completed t) (Fin (createdAt t)).

Definition tasks_array (ts : list Task) : list JSValue := map task_object ts.

(** ** The JSON object of the engine

    [JSON_parse s = None] stands for a [SyntaxError].  The two laws are the
    facts of ECMAScript's JSON the script relies on: the empty text is not
    JSON, and an array of tasks is read back as written. *)
Class JSON : Type := {
  JSON_parse : jsstring -> option JSValue;
  JSON_stringify : JSValue -> jsstring
}.

Class JSONLaws (J : JSON) : Prop := {
  JSON_parse_empty : JSON_parse [] = None;
  JSON_tasks_roundtrip : forall ts : list Task,
    JSON_parse (JSON_stringify (JArr (tasks_array ts))) = Some (JArr (tasks_array ts))
}.

(** ** The browser *)

Inductive ErrorName : Type :=
  | SyntaxError | TypeError | QuotaExceededError | SecurityError.

(** The storage area of the page's origin.  [room] is the length of the
    longest text the area can take under the script's key ([None]: no
    limit): what the quota leaves once the other items of the origin, which
    the script never touches, are accounted for.  An area that is not
    [accessible] refuses every access. *)
Record Storage : Type := {
  items : gmap (list N) (list N);
  room : option nat;
  accessible : bool
}.

(** What the area answers to a write of [value]. *)
Inductive Answer : Type := Accepted | NoRoom | Denied.

#[export] Instance Answer_eq_dec : EqDecision Answer.
Proof. solve_decision. Defined.

Definition answer (st : Storage) (value : jsstring) : Answer :=
  if accessible st then
    match room st with
    | Some n => if (n <? length value)%nat then NoRoom else Accepted
    | None => Accepted
    end
  else Denied.

(** One child of [#taskList]. *)
Record TaskItem : Type := {
  li_completed : bool;          (* class 'completed' on the <li> *)
  checkbox_checked : bool;      (* checkbox.checked *)
  span_textContent : JSValue;   (* the value assigned to span.textContent *)
  listeners_task : JSValue      (* the task both listeners close over *)
}.

Inductive Element : Type :=
  | EmptyState (textContent : jsstring)
  | TaskLi (item : TaskItem).

(** The page and the browser as far as the script touches them.  The three
    counters hold the value last assigned to their [textContent]. *)
Record World : Type := {
  localStorage : Storage;
  alerts : list jsstring;
  console : list (jsstring * ErrorName);
  taskList : list Element;
  totalTasks : JSValue;
  completedTasks : JSValue;
  pendingTasks : JSValue;
  taskInput : jsstring
}.

Definition with_localStorage (st : Storage) (w : World) : World :=
  {| localStorage := st; alerts := alerts w; console := console w;
     taskList := taskList w; totalTasks := totalTasks w;
     completedTasks := completedTasks w; pendingTasks := pendingTasks w;
     taskInput := taskInput w |}.

Definition with_alerts (a : list jsstring) (w : World) : World :=
  {| localStorage := localStorage w; alerts := a; console := console w;
     taskList := taskList w; totalTasks := totalTasks w;
     completedTasks := completedTasks w; pendingTasks := pendingTasks w;
     taskInput := taskInput w |}.

Definition with_console (c : list (jsstring * ErrorName)) (w : World) : World :=
  {| localStorage := localStorage w; alerts := alerts w; console := c;
     taskList := taskList w; totalTasks := totalTasks w;
     completedTasks := completedTasks w; pendingTasks := pendingTasks w;
     taskInput := taskInput w |}.

Definition with_taskList (l : list Element) (w : World) : World :=
  {| localStorage := localStorage w; alerts := alerts w; console := console w;
     taskList := l; totalTasks := totalTasks w;
     completedTasks := completedTasks w; pendingTasks := pendingTasks w;
     taskInput := taskInput w |}.

Definition with_stats (t c p : JSValue) (w : World) : World :=
  {| localStorage := localStorage w; alerts := alerts w; console := console w;
     taskList := taskList w; totalTasks := t;
     completedTasks := c; pendingTasks := p;
     taskInput := taskInput w |}.

Definition with_taskInput (s : jsstring) (w : World) : World :=
  {| localStorage := localStorage w; alerts := alerts w; console := console w;
     taskList := taskList w; totalTasks := totalTasks w;
     completedTasks := completedTasks w; pendingTasks := pendingTasks w;
     taskInput := s |}.

(** ** Computations: state and exceptions *)

Inductive Outcome (A : Type) : Type :=
  | Returns (a : A) (w : World)
  | Throws (e : ErrorName) (w : World).
Arguments Returns {A} a w.
Arguments Throws {A} e w.

Definition JS (A : Type) : Type := World -> Outcome A.

Definition ret {A} (a : A) : JS A := fun w => Returns a w.

Definition bind {A B} (c : JS A) (k : A -> JS B) : JS B :=
  fun w => match c w with
           | Returns a w' => k a w'
           | Throws e w' => Throws e w'
           end.

Definition throw {A} (e : ErrorName) : JS A := fun w => Throws e w.

(** [try { c } catch (error) { h error }] *)
Definition try_catch {A} (c : JS A) (h : ErrorName -> JS A) : JS A :=
  fun w => match c w with
           | Returns a w' => Returns a w'
           | Throws e w' => h e w'
           end.

Notation "'let*' x ':=' c 'in' k" := (bind c (fun x => k))
  (at level 10, x name, c at level 100, k at level 200).
Notation "c1 ';;;' c2" := (bind c1 (fun _ => c2))
  (at level 100, c2 at level 200, right associativity).

(** The world a computation leaves behind, whether it returned or threw. *)
Definition world_of {A} (o : Outcome A) : World :=
  match o with Returns _ w => w | Throws _ w => w end.

Definition exec {A} (c : JS A) (w : World) : World := world_of (c w).

(** ** Browser operations *)

Definition getItem (key : jsstring) : JS (option jsstring) :=
  fun w => if accessible (localStorage w)
           then Returns (items (localStorage w) !! key) w
           else Throws SecurityError w.

Definition setItem (key value : jsstring) : JS unit :=
  fun w => match answer (localStorage w) value with
           | Accepted =>
               Returns tt
                 (with_localStorage
                    {| items := <[key := value]> (items (localStorage w));
                       room := room (localStorage w);
                       accessible := accessible (localStorage w) |} w)
           | NoRoom => Throws QuotaExceededError w
           | Denied => Throws SecurityError w
           end.

Definition alert (msg : jsstring) : JS unit :=
  fun w => Returns tt (with_alerts (alerts w ++ [msg]) w).

Definition console_error (msg : jsstring) (e : ErrorName) : JS unit :=
  fun w => Returns tt (with_console (console w ++ [(msg, e)]) w).

(** [taskList.innerHTML = ''] and [taskList.appendChild(e)]. *)
Definition clear_taskList : JS unit :=
  fun w => Returns tt (with_taskList [] w).

Definition appendChild (e : Element) : JS unit :=
  fun w => Returns tt (with_taskList (taskList w ++ [e]) w).

(** The three assignments to [textContent] at the end of [updateStats]. *)
Definition show_stats (total completed pending : Z) : JS unit :=
  fun w => Returns tt (with_stats (JNum (Fin total)) (JNum (Fin completed))
                                  (JNum (Fin pending)) w).

(** [document.getElementById('taskInput').value = s] *)
Definition set_taskInput (s : jsstring) : JS unit :=
  fun w => Returns tt (with_taskInput s w).

(** [v.k] for the property names the script reads ([id], [text],
    [completed]): an own property of an object, [undefined] on any other
    value that has properties, a [TypeError] on [null] and [undefined]. *)
Definition get (v : JSValue) (k : jsstring) : JS JSValue :=
  match v with
  | JUndefined | JNull => throw TypeError
  | JObj ps => ret (default JUndefined (lookup_prop k ps))
  | _ => ret JUndefined
  end.

(** [a.filter(p)], [a.find(p)] and [a.forEach(f)] with callbacks that may
    throw.  [find] yields a reference into the array: the slot and the
    value in it. *)
Fixpoint Array_filter {A} (p : A -> JS bool) (l : list A) : JS (list A) :=
  match l with
  | [] => ret []
  | x :: l' =>
      let* keep := p x in
      let* rest := Array_filter p l' in
      ret (if keep then x :: rest else rest)
  end.

Fixpoint Array_find_from {A} (i : nat) (p : A -> JS bool) (l : list A)
  : JS (option (nat * A)) :=
  match l with
  | [] => ret None
  | x :: l' =>
      let* found := p x in
      if found then ret (Some (i, x)) else Array_find_from (S i) p l'
  end.

Definition Array_find {A} (p : A -> JS bool) (l : list A) : JS (option (nat * A)) :=
  Array_find_from 0 p l.

Fixpoint Array_forEach {A} (f : A -> JS unit) (l : list A) : JS unit :=
  match l with
  | [] => ret tt
  | x :: l' => f x ;;; Array_forEach f l'
  end.

(** [Number.prototype.toString(36)] on an integer. *)
Definition digit36 (d : N) : N := if d <? 10 then 48 + d else 87 + d.

Fixpoint toString36_pos (fuel : nat) (n : N) (acc : jsstring) : jsstring :=
  match fuel with
  | O => acc
  | S fuel' =>
      if n <? 36 then digit36 n :: acc
      else toString36_pos fuel' (n / 36) (digit36 (n mod 36) :: acc)
  end.

Definition toString36 (z : Z) : jsstring :=
  let n := Z.abs_N z in
  let digits := toString36_pos (S (N.to_nat (N.log2 n))) n [] in
  if (z <? 0)%Z then 45 :: digits else digits.

(** ** The script *)

(** The messages of the script, as code units. *)

(* 'タスクの読み込みに失敗しました:' *)
Definition MSG_LOAD_FAILED : jsstring :=
  [0x30bf; 0x30b9; 0x30af; 0x306e; 0x8aad; 0x307f; 0x8fbc; 0x307f; 0x306b;
   0x5931; 0x6557; 0x3057; 0x307e; 0x3057; 0x305f; 0x003a].

(* 'ストレージの容量が不足しています。一部のタスクを削除してください。' *)
Definition MSG_QUOTA : jsstring :=
  [0x30b9; 0x30c8; 0x30ec; 0x30fc; 0x30b8; 0x306e; 0x5bb9; 0x91cf; 0x304c;
   0x4e0d; 0x8db3; 0x3057; 0x3066; 0x3044; 0x307e; 0x3059; 0x3002; 0x4e00;
   0x90e8; 0x306e; 0x30bf; 0x30b9; 0x30af; 0x3092; 0x524a; 0x9664; 0x3057;
   0x3066; 0x304f; 0x3060; 0x3055; 0x3044; 0x3002].

(* 'タスクの保存に失敗しました:' *)
Definition MSG_SAVE_FAILED : jsstring :=
  [0x30bf; 0x30b9; 0x30af; 0x306e; 0x4fdd; 0x5b58; 0x306b; 0x5931; 0x6557;
   0x3057; 0x307e; 0x3057; 0x305f; 0x003a].

(* 'タスクを入力してください。' *)
Definition MSG_EMPTY : jsstring :=
  [0x30bf; 0x30b9; 0x30af; 0x3092; 0x5165; 0x529b; 0x3057; 0x3066; 0x304f;
   0x3060; 0x3055; 0x3044; 0x3002].

(* 'タスクは200文字以内で入力してください。' *)
Definition MSG_TOO_LONG : jsstring :=
  [0x30bf; 0x30b9; 0x30af; 0x306f; 0x0032; 0x0030; 0x0030; 0x6587; 0x5b57;
   0x4ee5; 0x5185; 0x3067; 0x5165; 0x529b; 0x3057; 0x3066; 0x304f; 0x3060;
   0x3055; 0x3044; 0x3002].

(* 'タスクがありません。新しいタスクを追加してください。' *)
Definition MSG_EMPTY_STATE : jsstring :=
  [0x30bf; 0x30b9; 0x30af; 0x304c; 0x3042; 0x308a; 0x307e; 0x305b; 0x3093;
   0x3002; 0x65b0; 0x3057; 0x3044; 0x30bf; 0x30b9; 0x30af; 0x3092; 0x8ffd;
   0x52a0; 0x3057; 0x3066; 0x304f; 0x3060; 0x3055; 0x3044; 0x3002].

Definition STORAGE_KEY : jsstring := lit "todos".

(** What [addTask] reads from the browser before it touches the storage:
    [Date.now()] and [Math.random().toString(36)] inside [generateId], then
    [Date.now()] again for [createdAt]. *)
Record Readings : Type := {
  now_in_generateId : Z;
  random_toString36 : jsstring;
  now_in_addTask : Z
}.

Definition generateId (now : Z) (random36 : jsstring) : jsstring :=
  toString36 now ++ substring 2 random36.

Section Script.
Context {J : JSON}.

Definition loadTasks : JS (list JSValue) :=
  try_catch
    (let* tasksJson := getItem STORAGE_KEY in
     match tasksJson with
     | None => ret []
     | Some [] => ret []
     | Some s =>
         let* tasks :=
           match JSON_parse s with
           | Some v => ret v
           | None => throw SyntaxError
           end in
         ret (match tasks with JArr elements => elements | _ => [] end)
     end)
    (fun error => console_error MSG_LOAD_FAILED error ;;; ret []).

Definition saveTasks (tasks : list JSValue) : JS unit :=
  try_catch
    (setItem STORAGE_KEY (JSON_stringify (JArr tasks)))
    (fun error =>
       match error with
       | QuotaExceededError => alert MSG_QUOTA
       | _ => console_error MSG_SAVE_FAILED error
       end).

Definition renderTaskItem (task : JSValue) : JS Element :=
  let* completed := get task (lit "completed") in
  let* text := get task (lit "text") in
  ret (TaskLi {| li_completed := truthy completed;
                 checkbox_checked := truthy completed;
                 span_textContent := text;
                 listeners_task := task |}).

Definition updateStats : JS unit :=
  let* tasks := loadTasks in
  let totalTasks := Z.of_nat (length tasks) in
  let* done :=
    Array_filter (fun t => let* c := get t (lit "completed") in ret (truthy c)) tasks in
  let completedTasks := Z.of_nat (length done) in
  let pendingTasks := (totalTasks - completedTasks)%Z in
  show_stats totalTasks completedTasks pendingTasks.

Definition renderTasks : JS unit :=
  let* tasks := loadTasks in
  clear_taskList ;;;
  (if (length tasks =? 0)%nat
   then appendChild (EmptyState MSG_EMPTY_STATE)
   else Array_forEach
          (fun task => let* taskElement := renderTaskItem task in
                       appendChild taskElement)
          tasks) ;;;
  updateStats.

Definition addTask (taskText : jsstring) (env : Readings) : JS unit :=
  let trimmedText := trim taskText in
  if negb (truthy (JStr trimmedText)) then alert MSG_EMPTY
  else if (200 <? length trimmedText)%nat then alert MSG_TOO_LONG
  else
    let newTask :=
      task_literal (generateId (now_in_generateId env) (random_toString36 env))
                   trimmedText false (Fin (now_in_addTask env)) in
    let* tasks := loadTasks in
    let tasks := tasks ++ [newTask] in
    saveTasks tasks ;;;
    renderTasks ;;;
    set_taskInput [].

(** [task.completed = v]: the object is the one in the array, so the
    caller writes the result back into its slot. *)
Definition put (v : JSValue) (k : jsstring) (x : JSValue) : JS JSValue :=
  match v with
  | JUndefined | JNull => throw TypeError
  | JObj ps => ret (JObj (assign_prop k x ps))
  | _ => ret v
  end.

(** [t => t.id === taskId] and [t => t.id !== taskId] *)
Definition has_id (taskId : jsstring) (t : JSValue) : JS bool :=
  let* i := get t (lit "id") in ret (strict_eq i (JStr taskId)).

Definition has_other_id (taskId : jsstring) (t : JSValue) : JS bool :=
  let* i := get t (lit "id") in ret (negb (strict_eq i (JStr taskId))).

Definition toggleTask (taskId : jsstring) : JS unit :=
  let* tasks := loadTasks in
  let* task := Array_find (has_id taskId) tasks in
  match task with
  | Some (slot, t) =>
      if truthy t then
        let* c := get t (lit "completed") in
        let* t' := put t (lit "completed") (JBool (negb (truthy c))) in
        saveTasks (<[slot := t']> tasks) ;;;
        renderTasks
      else ret tt
  | None => ret tt
  end.

Definition deleteTask (taskId : jsstring) : JS unit :=
  let* tasks := loadTasks in
  let* filteredTasks := Array_filter (has_other_id taskId) tasks in
  saveTasks filteredTasks ;;;
  renderTasks.

End Script.

(** ** A reference JSON engine

    A printer and a parser for JSON texts, used to run the script on
    concrete stores.  Number literals are the integral ones; a literal with
    a fraction or an exponent is outside this engine and is refused.  An
    object keeps its members in the order of the text. *)

Module Ref.

Fixpoint units_of_uint (d : Decimal.uint) : jsstring :=
  match d with
  | Decimal.Nil => []
  | Decimal.D0 d' => 48 :: units_of_uint d'
  | Decimal.D1 d' => 49 :: units_of_uint d'
  | Decimal.D2 d' => 50 :: units_of_uint d'
  | Decimal.D3 d' => 51 :: units_of_uint d'
  | Decimal.D4 d' => 52 :: units_of_uint d'
  | Decimal.D5 d' => 53 :: units_of_uint d'
  | Decimal.D6 d' => 54 :: units_of_uint d'
  | Decimal.D7 d' => 55 :: units_of_uint d'
  | Decimal.D8 d' => 56 :: units_of_uint d'
  | Decimal.D9 d' => 57 :: units_of_uint d'
  end.

Definition print_Z (z : Z) : jsstring :=
  match Z.to_int z with
  | Decimal.Pos d => units_of_uint d
  | Decimal.Neg d => 45 :: units_of_uint d
  end.

(** [NaN] and the infinities are written as [null]. *)
Definition print_number (n : number) : jsstring :=
  match n with
  | Fin z => print_Z z
  | NaN | Infinity _ => lit "null"
  end.

Definition hex_digit (d : N) : N := if d <? 10 then 48 + d else 87 + d.

(** [\uXXXX], lower case. *)
Definition unicode_escape (c : N) : jsstring :=
  [92; 117; hex_digit (c / 4096 mod 16); hex_digit (c / 256 mod 16);
   hex_digit (c / 16 mod 16); hex_digit (c mod 16)].

Definition escape_unit (c : N) : jsstring :=
  if c =? 34 then [92; 34]
  else if c =? 92 then [92; 92]
  else if c =? 8 then [92; 98]
  else if c =? 12 then [92; 102]
  else if c =? 10 then [92; 110]
  else if c =? 13 then [92; 114]
  else if c =? 9 then [92; 116]
  else if c <? 32 then unicode_escape c
  else [c].

Definition is_high_surrogate (c : N) : bool := (0xd800 <=? c) && (c <=? 0xdbff).
Definition is_low_surrogate (c : N) : bool := (0xdc00 <=? c) && (c <=? 0xdfff).

(** [QuoteJSONString] without the quotes: a surrogate that is not part of
    a pair is escaped. *)
Fixpoint quote_units (s : jsstring) : jsstring :=
  match s with
  | [] => []
  | c :: s' =>
      if is_high_surrogate c then
        match s' with
        | c2 :: s'' =>
            if is_low_surrogate c2 then c :: c2 :: quote_units s''
            else unicode_escape c ++ quote_units s'
        | [] => unicode_escape c
        end
      else if is_low_surrogate c then unicode_escape c ++ quote_units s'
      else escape_unit c ++ quote_units s'
  end.

Definition print_string (s : jsstring) : jsstring := 34 :: quote_units s ++ [34].

Fixpoint join (sep : N) (parts : list jsstring) : jsstring :=
  match parts with
  | [] => []
  | [x] => x
  | x :: parts' => x ++ sep :: join sep parts'
  end.

Definition is_undefined (v : JSValue) : bool :=
  match v with JUndefined => true | _ => false end.

(** Inside an array [undefined] is written as [null]; a member whose value
    is [undefined] is left out. *)
Fixpoint print_value (v : JSValue) : jsstring :=
  match v with
  | JUndefined | JNull => lit "null"
  | JBool true => lit "true"
  | JBool false => lit "false"
  | JNum n => print_number n
  | JStr s => print_string s
  | JArr l => 91 :: join 44 (map print_value l) ++ [93]
  | JObj ps =>
      123 :: join 44 (omap (fun o => o)
                 (map (fun kv => match kv with
                                 | (k, v') =>
                                     if is_undefined v' then None
                                     else Some (print_string k ++ 58 :: print_value v')
                                 end) ps)) ++ [125]
  end.

Definition stringify (v : JSValue) : jsstring := print_value v.

Definition is_ws (c : N) : bool :=
  (c =? 32) || (c =? 9) || (c =? 10) || (c =? 13).

Fixpoint skip_ws (input : jsstring) : jsstring :=
  match input with
  | c :: rest => if is_ws c then skip_ws rest else input
  | [] => []
  end.

Definition hex_value (c : N) : option N :=
  if (48 <=? c) && (c <=? 57) then Some (c - 48)
  else if (97 <=? c) && (c <=? 102) then Some (c - 87)
  else if (65 <=? c) && (c <=? 70) then Some (c - 55)
  else None.

(** The characters of a string after its opening quote. *)
Fixpoint parse_string_body (input acc : jsstring) : option (jsstring * jsstring) :=
  match input with
  | [] => None
  | c :: rest =>
      if c =? 34 then Some (rev acc, rest)
      else if c =? 92 then
        match rest with
        | [] => None
        | e :: rest' =>
            if e =? 34 then parse_string_body rest' (34 :: acc)
            else if e =? 92 then parse_string_body rest' (92 :: acc)
            else if e =? 47 then parse_string_body rest' (47 :: acc)
            else if e =? 98 then parse_string_body rest' (8 :: acc)
            else if e =? 102 then parse_string_body rest' (12 :: acc)
            else if e =? 110 then parse_string_body rest' (10 :: acc)
            else if e =? 114 then parse_string_body rest' (13 :: acc)
            else if e =? 116 then parse_string_body rest' (9 :: acc)
            else if e =? 117 then
              match rest' with
              | h3 :: h2 :: h1 :: h0 :: rest'' =>
                  match hex_value h3, hex_value h2, hex_value h1, hex_value h0 with
                  | Some a, Some b, Some c', Some d =>
                      parse_string_body rest'' (((a * 16 + b) * 16 + c') * 16 + d :: acc)
                  | _, _, _, _ => None
                  end
              | _ => None
              end
            else None
        end
      else if c <? 32 then None
      else parse_string_body rest (c :: acc)
  end.

Definition digit_cons (c : N) : option (Decimal.uint -> Decimal.uint) :=
  if c =? 48 then Some Decimal.D0 else if c =? 49 then Some Decimal.D1
  else if c =? 50 then Some Decimal.D2 else if c =? 51 then Some Decimal.D3
  else if c =? 52 then Some Decimal.D4 else if c =? 53 then Some Decimal.D5
  else if c =? 54 then Some Decimal.D6 else if c =? 55 then Some Decimal.D7
  else if c =? 56 then Some Decimal.D8 else if c =? 57 then Some Decimal.D9
  else None.

Fixpoint parse_uint (input : jsstring) : Decimal.uint * jsstring :=
  match input with
  | [] => (Decimal.Nil, [])
  | c :: rest =>
      match digit_cons c with
      | Some f => let (d, r) := parse_uint rest in (f d, r)
      | None => (Decimal.Nil, input)
      end
  end.

(** Does a fraction or an exponent follow? *)
Definition fraction_follows (input : jsstring) : bool :=
  match input with
  | c :: _ => (c =? 46) || (c =? 101) || (c =? 69)
  | [] => false
  end.

Definition split_sign (input : jsstring) : bool * jsstring :=
  match input with
  | c :: rest => if c =? 45 then (true, rest) else (false, input)
  | [] => (false, [])
  end.

Definition parse_number (input : jsstring) : option (JSValue * jsstring) :=
  let (negative, digits) := split_sign input in
  let (d, rest) := parse_uint digits in
  if Decimal.uint_eq_dec d (Decimal.unorm d) then
    if fraction_follows rest then None
    else Some (JNum (Fin (Z.of_int (if negative : bool then Decimal.Neg d else Decimal.Pos d))),
               rest)
  else None.

Fixpoint strip_prefix (p s : jsstring) : option jsstring :=
  match p, s with
  | [], _ => Some s
  | a :: p', b :: s' => if a =? b then strip_prefix p' s' else None
  | _ :: _, [] => None
  end.

Fixpoint parse_value (fuel : nat) (input : jsstring) : option (JSValue * jsstring) :=
  match fuel with
  | O => None
  | S fuel' =>
      match skip_ws input with
      | [] => None
      | c :: rest =>
          if c =? 34 then
            match parse_string_body rest [] with
            | Some (s, r) => Some (JStr s, r)
            | None => None
            end
          else if c =? 91 then
            match skip_ws rest with
            | [] => None
            | c2 :: r2 =>
                if c2 =? 93 then Some (JArr [], r2)
                else match parse_elements fuel' rest with
                     | Some (l, r) => Some (JArr l, r)
                     | None => None
                     end
            end
          else if c =? 123 then
            match skip_ws rest with
            | [] => None
            | c2 :: r2 =>
                if c2 =? 125 then Some (JObj [], r2)
                else match parse_members fuel' rest with
                     | Some (ps, r) => Some (JObj ps, r)
                     | None => None
                     end
            end
          else
            match strip_prefix (lit "true") (c :: rest) with
            | Some r => Some (JBool true, r)
            | None =>
            match strip_prefix (lit "false") (c :: rest) with
            | Some r => Some (JBool false, r)
            | None =>
            match strip_prefix (lit "null") (c :: rest) with
            | Some r => Some (JNull, r)
            | None => parse_number (c :: rest)
            end end end
      end
  end
with parse_elements (fuel : nat) (input : jsstring) : option (list JSValue * jsstring) :=
  match fuel with
  | O => None
  | S fuel' =>
      match parse_value fuel' input with
      | None => None
      | Some (v, r) =>
          match skip_ws r with
          | [] => None
          | c :: r' =>
              if c =? 44 then
                match parse_elements fuel' r' with
                | Some (l, r'') => Some (v :: l, r'')
                | None => None
                end
              else if c =? 93 then Some ([v], r')
              else None
          end
      end
  end
with parse_members (fuel : nat) (input : jsstring)
  : option (list (jsstring * JSValue) * jsstring) :=
  match fuel with
  | O => None
  | S fuel' =>
      match skip_ws input with
      | [] => None
      | q :: r0 =>
          if q =? 34 then
            match parse_string_body r0 [] with
            | None => None
            | Some (k, r1) =>
                match skip_ws r1 with
                | [] => None
                | colon :: r2 =>
                    if colon =? 58 then
                      match parse_value fuel' r2 with
                      | None => None
                      | Some (v, r3) =>
                          match skip_ws r3 with
                          | [] => None
                          | c :: r4 =>
                              if c =? 44 then
                                match parse_members fuel' r4 with
                                | Some (ps, r5) => Some ((k, v) :: ps, r5)
                                | None => None
                                end
                              else if c =? 125 then Some ([(k, v)], r4)
                              else None
                          end
                      end
                    else None
                end
            end
          else None
      end
  end.

(** The fuel bounds the nesting and the number of elements; every unit of
    it is spent on at least one character of the text. *)
Definition parse (s : jsstring) : option JSValue :=
  match parse_value (S (length s)) s with
  | Some (v, r) => match skip_ws r with [] => Some v | _ => None end
  | None => None
  end.

End Ref.

#[export] Instance RefJSON : JSON :=
  {| JSON_parse := Ref.parse; JSON_stringify := Ref.stringify |}.

Definition empty_world (r : option nat) : World :=
  {| localStorage := {| items := ∅; room := r; accessible := true |};
     alerts := []; console := []; taskList := [];
     totalTasks := JUndefined; completedTasks := JUndefined;
     pendingTasks := JUndefined; taskInput := [] |}.

(** A world that keeps the text [s] under the storage key. *)
Definition world_storing (s : jsstring) (r : option nat) : World :=
  {| localStorage := {| items := {[ STORAGE_KEY := s ]}; room := r;
                        accessible := true |};
     alerts := []; console := []; taskList := [];
     totalTasks := JUndefined; completedTasks := JUndefined;
     pendingTasks := JUndefined; taskInput := lit "typed" |}.

(** Sample data. *)
Definition milk : Task :=
  {| id := lit "lq1"; text := lit "Buy milk"; completed := false;
     createdAt := 1700000000000 |}.

Definition bread : Task :=
  {| id := lit "lq2"; text := lit "Bake bread"; completed := true;
     createdAt := 1700000000500 |}.

Definition two_tasks (r : option nat) : World :=
  world_storing (Ref.stringify (JArr (tasks_array [milk; bread]))) r.

(** The same with a storage area that is exactly full. *)
Definition two_tasks_full : World :=
  two_tasks (Some (length (Ref.stringify (JArr (tasks_array [milk; bread]))))).

(* An input with an ideographic space, a space and a line feed around it. *)
Definition eggs : jsstring := [0x3000; 32] ++ lit "Buy eggs" ++ [32; 10].

Definition readings : Readings :=
  {| now_in_generateId := 1700000000000;
     random_toString36 := lit "0.4fzyo82mvyr";
     now_in_addTask := 1700000000001 |}.

(** Readings of a later call. *)
Definition later_readings : Readings :=
  {| now_in_generateId := 1700000000777;
     random_toString36 := lit "0.k2j4h9x1m";
     now_in_addTask := 1700000000778 |}.


(** The two tasks, stored and drawn on the page. *)
Definition two_tasks_drawn : World := exec renderTasks (two_tasks None).

(** A store with [null] between the two tasks. *)
Definition null_between : World :=
  world_storing
    (Ref.stringify (JArr (tasks_array [milk] ++ [JNull; task_object bread]))) None.

(** ** Notions used to state the properties *)

Section Notions.
Context {J : JSON}.

(** The collection the script sees in a world: what [loadTasks] returns
    there. *)
Definition loaded (w : World) : list JSValue :=
  match loadTasks w with
  | Returns tasks _ => tasks
  | Throws _ _ => []
  end.

(** The text kept under the storage key. *)
Definition stored (w : World) : option jsstring :=
  items (localStorage w) !! STORAGE_KEY.

(** What the list shows for a collection of tasks. *)
Definition task_item (t : Task) : Element :=
  TaskLi {| li_completed := completed t;
            checkbox_checked := completed t;
            span_textContent := JStr (text t);
            listeners_task := task_object t |}.

Definition rendering (ts : list Task) : list Element :=
  match ts with
  | [] => [EmptyState MSG_EMPTY_STATE]
  | _ => map task_item ts
  end.

Definition count_completed (ts : list Task) : nat :=
  length (filter (fun t => completed t = true) ts).

(** The page shows exactly the collection [ts]: list and counters. *)
Definition displays (w : World) (ts : list Task) : Prop :=
  taskList w = rendering ts
  /\ totalTasks w = JNum (Fin (Z.of_nat (length ts)))
  /\ completedTasks w = JNum (Fin (Z.of_nat (count_completed ts)))
  /\ pendingTasks w
     = JNum (Fin (Z.of_nat (length ts) - Z.of_nat (count_completed ts))).

(** The task [addTask] builds from a text that passed validation. *)
Definition new_task (taskText : jsstring) (env : Readings) : Task :=
  {| id := generateId (now_in_generateId env) (random_toString36 env);
     text := trim taskText;
     completed := false;
     createdAt := now_in_addTask env |}.

Definition flip (t : Task) : Task :=
  {| id := id t; text := text t; completed := negb (completed t);
     createdAt := createdAt t |}.

(** The first task with the given id has its [completed] flag negated. *)
Fixpoint toggle_first (taskId : jsstring) (ts : list Task) : list Task :=
  match ts with
  | [] => []
  | t :: ts' =>
      if bool_decide (id t = taskId) then flip t :: ts'
      else t :: toggle_first taskId ts'
  end.

(** The documented layout of the persisted value: an array of objects,
    each with exactly the fields [id] (string), [text] (string),
    [completed] (boolean) and [createdAt] (number). *)
Definition documented_task (v : JSValue) : bool :=
  match v with
  | JObj ps =>
      (length ps =? 4)%nat
      && match lookup_prop (lit "id") ps with Some (JStr _) => true | _ => false end
      && match lookup_prop (lit "text") ps with Some (JStr _) => true | _ => false end
      && match lookup_prop (lit "completed") ps with Some (JBool _) => true | _ => false end
      && match lookup_prop (lit "createdAt") ps with Some (JNum _) => true | _ => false end
  | _ => false
  end.

Definition documented_layout (v : JSValue) : bool :=
  match v with
  | JArr l => forallb documented_task l
  | _ => false
  end.

(** User actions, and the world after a sequence of them. *)
Inductive Action : Type :=
  | Add (taskText : jsstring) (env : Readings)
  | Toggle (taskId : jsstring)
  | Delete (taskId : jsstring).

Definition perform (a : Action) : JS unit :=
  match a with
  | Add taskText env => addTask taskText env
  | Toggle taskId => toggleTask taskId
  | Delete taskId => deleteTask taskId
  end.

Fixpoint run (acts : list Action) (w : World) : World :=
  match acts with
  | [] => w
  | a :: acts' => run acts' (exec (perform a) w)
  end.

(** The stored collection is a collection of tasks with pairwise distinct
    ids. *)
Definition unique_ids (w : World) : Prop :=
  exists ts, loaded w = tasks_array ts /\ NoDup (map id ts).

(** Every [Add] of the sequence generates an id that the collection stored
    at that moment does not contain. *)
Fixpoint fresh_ids (acts : list Action) (w : World) : Prop :=
  match acts with
  | [] => True
  | a :: acts' =>
      match a with
      | Add _ env =>
          forall ts, loaded w = tasks_array ts ->
                     generateId (now_in_generateId env) (random_toString36 env)
                     ∉ map id ts
      | _ => True
      end
      /\ fresh_ids acts' (exec (perform a) w)
  end.

(** What the storage answers when [saveTasks] writes [tasks]. *)
Definition save_answer (w : World) (tasks : list JSValue) : Answer :=
  answer (localStorage w) (JSON_stringify (JArr tasks)).

(** The readings of five sentences of the specification that the script
    does not satisfy as they stand. *)

(** "Any shape mismatch is treated as absent data on load." *)
Definition mismatch_is_absent (w : World) : Prop :=
  forall s v, stored w = Some s -> JSON_parse s = Some v ->
              documented_layout v = false -> loaded w = [].


(** "After a quota-failed add the rendered list and the counters show the
    new task." *)
Definition shows_unsaved_task (taskText : jsstring) (env : Readings) (w : World) : Prop :=
  save_answer w (loaded w ++ [task_object (new_task taskText env)]) = NoRoom ->
  let w' := exec (addTask taskText env) w in
  task_item (new_task taskText env) ∈ taskList w'
  /\ totalTasks w' = JNum (Fin (Z.of_nat (length (loaded w)) + 1)).

(** "After any sequence of operations the ids remain pairwise distinct." *)
Definition ids_always_unique : Prop :=
  forall acts w, unique_ids w -> unique_ids (run acts w).

(** "add appends a new Task with a freshly generated id": the id of the
    appended task is none of the ids already in the collection. *)
Definition appends_fresh_id (taskText : jsstring) (env : Readings) (w : World) : Prop :=
  forall ts, loaded w = tasks_array ts ->
    exists t, loaded (exec (addTask taskText env) w) = tasks_array (ts ++ [t])
              /\ id t ∉ map id ts.

(** What [saveTasks] leaves in the storage area. *)
Definition written (tasks : list JSValue) (st : Storage) : Storage :=
  match answer st (JSON_stringify (JArr tasks)) with
  | Accepted =>
      {| items := <[STORAGE_KEY := JSON_stringify (JArr tasks)]> (items st);
         room := room st; accessible := accessible st |}
  | _ => st
  end.

(** The storage and the alerts are the same in two worlds. *)
Definition quiet (w w' : World) : Prop :=
  localStorage w' = localStorage w /\ alerts w' = alerts w.

(** A computation that neither writes the storage nor alerts, however it
    ends. *)
Definition is_quiet {A} (c : JS A) : Prop := forall w, quiet w (exec c w).

(** The stored collection after [saveTasks] was called with [ts] where
    [ts0] was stored: the storage took the write or it did not. *)
Definition kept (a : Answer) (ts ts0 : list Task) : list Task :=
  if bool_decide (a = Accepted) then ts else ts0.

Definition alerts_after_save (w : World) (tasks : list JSValue) : list jsstring :=
  if bool_decide (save_answer w tasks = NoRoom)
  then alerts w ++ [MSG_QUOTA] else alerts w.

End Notions.

(** ** The documented layout and JSON

    [createdAt] is a number of epoch milliseconds: a finite number, in the
    model an integer. *)
Definition finite_createdAt (v : JSValue) : bool :=
  match v with
  | JObj ps =>
      match lookup_prop (lit "createdAt") ps with
      | Some (JNum (Fin _)) => true
      | _ => false
      end
  | _ => false
  end.

(** A string, a boolean or an integer: what the fields of a task hold. *)
Definition scalar (v : JSValue) : bool :=
  match v with
  | JStr _ | JBool _ | JNum (Fin _) => true
  | _ => false
  end.

(** The fact of ECMAScript's JSON behind the round trip of the persisted
    value: an array in the documented layout whose [createdAt] are finite
    is read back as written, whatever the order of the four fields in each
    element. *)
Class JSONLayoutLaw (J : JSON) : Prop := {
  JSON_layout_roundtrip : forall tasks : list JSValue,
    documented_layout (JArr tasks) = true ->
    forallb finite_createdAt tasks = true ->
    JSON_parse (JSON_stringify (JArr tasks)) = Some (JArr tasks)
}.

(** ** The rest of the script: [init] and the listeners *)

(* 'お使いのブラウザはlocalStorageに対応していません。データの保存ができません。' *)
Definition MSG_NO_STORAGE : jsstring :=
  [0x304a; 0x4f7f; 0x3044; 0x306e; 0x30d6; 0x30e9; 0x30a6; 0x30b6; 0x306f;
   0x006c; 0x006f; 0x0063; 0x0061; 0x006c; 0x0053; 0x0074; 0x006f; 0x0072;
   0x0061; 0x0067; 0x0065; 0x306b; 0x5bfe; 0x5fdc; 0x3057; 0x3066; 0x3044;
   0x307e; 0x305b; 0x3093; 0x3002; 0x30c7; 0x30fc; 0x30bf; 0x306e; 0x4fdd;
   0x5b58; 0x304c; 0x3067; 0x304d; 0x307e; 0x305b; 0x3093; 0x3002].

Section Listeners.
Context {J : JSON}.

(** The listeners of [renderTaskItem] call [toggleTask(task.id)] and
    [deleteTask(task.id)] with whatever value [task.id] is.
    [toggleTask_of] and [deleteTask_of] are [toggleTask] and [deleteTask]
    with the argument at that wider type; on a string they are the same
    computations. *)
Definition id_is (taskId : JSValue) (t : JSValue) : JS bool :=
  let* i := get t (lit "id") in ret (strict_eq i taskId).

Definition id_is_not (taskId : JSValue) (t : JSValue) : JS bool :=
  let* i := get t (lit "id") in ret (negb (strict_eq i taskId)).

Definition toggleTask_of (taskId : JSValue) : JS unit :=
  let* tasks := loadTasks in
  let* task := Array_find (id_is taskId) tasks in
  match task with
  | Some (slot, t) =>
      if truthy t then
        let* c := get t (lit "completed") in
        let* t' := put t (lit "completed") (JBool (negb (truthy c))) in
        saveTasks (<[slot := t']> tasks) ;;;
        renderTasks
      else ret tt
  | None => ret tt
  end.

Definition deleteTask_of (taskId : JSValue) : JS unit :=
  let* tasks := loadTasks in
  let* filteredTasks := Array_filter (id_is_not taskId) tasks in
  saveTasks filteredTasks ;;;
  renderTasks.

(** [checkbox.addEventListener('change', () => toggleTask(task.id))] and
    [deleteButton.addEventListener('click', () => deleteTask(task.id))]:
    what happens when the event reaches the element.  The placeholder of an
    empty list has no listener. *)
Definition checkbox_change (e : Element) : JS unit :=
  match e with
  | TaskLi item =>
      let* i := get (listeners_task item) (lit "id") in toggleTask_of i
  | EmptyState _ => ret tt
  end.

Definition deleteButton_click (e : Element) : JS unit :=
  match e with
  | TaskLi item =>
      let* i := get (listeners_task item) (lit "id") in deleteTask_of i
  | EmptyState _ => ret tt
  end.

(** The same events, addressed by the row of the list they reach. *)
Definition change_row (row : nat) : JS unit :=
  fun w => match taskList w !! row with
           | Some e => checkbox_change e w
           | None => Returns tt w
           end.

Definition click_delete_row (row : nat) : JS unit :=
  fun w => match taskList w !! row with
           | Some e => deleteButton_click e w
           | None => Returns tt w
           end.

(** The two listeners that [init] installs: both read [taskInput.value]
    and call [addTask]. *)
Definition addButton_click (env : Readings) : JS unit :=
  fun w => addTask (taskInput w) env w.

Definition taskInput_keypress (key : jsstring) (env : Readings) : JS unit :=
  if jsstring_eqb key (lit "Enter")
  then fun w => addTask (taskInput w) env w
  else ret tt.

(** [init], given what [typeof Storage === 'undefined'] evaluates to. *)
Definition init (Storage_undefined : bool) : JS unit :=
  (if Storage_undefined then alert MSG_NO_STORAGE else ret tt) ;;;
  renderTasks.

End Listeners.

(** ** Notions for further properties *)

(** A computation that relates every world to the world it leaves, however
    it ends. *)
Definition keeps (R : World -> World -> Prop) {A} (c : JS A) : Prop :=
  forall w, R w (exec c w).

(** The storage area differs at most in what it keeps under the script's
    key, and keeps something there if it did. *)
Definition same_but_key (w w' : World) : Prop :=
  (forall k, k <> STORAGE_KEY ->
             items (localStorage w') !! k = items (localStorage w) !! k)
  /\ room (localStorage w') = room (localStorage w)
  /\ accessible (localStorage w') = accessible (localStorage w)
  /\ (is_Some (items (localStorage w) !! STORAGE_KEY) ->
      is_Some (items (localStorage w') !! STORAGE_KEY)).

(** Only the list, the counters and the console may differ. *)
Definition same_but_page (w w' : World) : Prop :=
  localStorage w' = localStorage w
  /\ alerts w' = alerts w
  /\ taskInput w' = taskInput w.

(** The alerts of [w'] are those of [w] followed by notices of the
    script. *)
Definition more_notices (w w' : World) : Prop :=
  exists extra,
    alerts w' = alerts w ++ extra
    /\ Forall (fun m => m ∈ [MSG_EMPTY; MSG_TOO_LONG; MSG_QUOTA; MSG_NO_STORAGE]) extra.

(** No element of the array is [null] or [undefined]. *)
Definition has_properties (v : JSValue) : bool :=
  match v with JUndefined | JNull => false | _ => true end.

(** [t.id] on a value that has properties. *)
Definition id_of (t : JSValue) : JSValue :=
  match t with
  | JObj ps => default JUndefined (lookup_prop (lit "id") ps)
  | _ => JUndefined
  end.

(** [t.completed], as a truth value, on a value that has properties. *)
Definition is_completed (t : JSValue) : bool :=
  match t with
  | JObj ps => truthy (default JUndefined (lookup_prop (lit "completed") ps))
  | _ => false
  end.

(** The value of a digit of [toString(36)], and the number a sequence of
    digits denotes. *)
Definition value36 (c : N) : N := if c <? 58 then c - 48 else c - 87.

Definition decode36 (digits : jsstring) : N :=
  fold_left (fun a c => a * 36 + value36 c) digits 0.

Section MoreNotions.
Context {J : JSON}.

(** The page shows the collection that is stored. *)
Definition consistent (w : World) : Prop :=
  exists ts, loaded w = tasks_array ts /\ displays w ts.

(** A text as [addTask] accepts it: not empty, at most 200 code units, no
    white space at either end. *)
Definition valid_text (s : jsstring) : Prop :=
  s <> [] /\ (length s <= 200)%nat /\ trim s = s.

Definition valid_texts (w : World) : Prop :=
  exists ts, loaded w = tasks_array ts /\ Forall (fun t => valid_text (text t)) ts.

(** Every write is accepted: the area is accessible and has no limit. *)
Definition unlimited (w : World) : Prop :=
  accessible (localStorage w) = true /\ room (localStorage w) = None.

(** The three operations as operations on a list of tasks. *)
Definition step_tasks (a : Action) (ts : list Task) : list Task :=
  match a with
  | Add taskText env =>
      if bool_decide (trim taskText <> [] /\ (length (trim taskText) <= 200)%nat)
      then ts ++ [new_task taskText env] else ts
  | Toggle taskId => toggle_first taskId ts
  | Delete taskId => filter (fun t => id t <> taskId) ts
  end.

Definition run_tasks (acts : list Action) (ts : list Task) : list Task :=
  fold_left (fun ts a => step_tasks a ts) acts ts.

(** What the user can do on the page: type a text into the input field
    (the browser sets [taskInput.value], no listener of the script runs),
    click the add button, press a key in the input field, tick the checkbox
    of a row, click the delete button of a row. *)
Inductive Event : Type :=
  | TypeText (s : jsstring)
  | ClickAdd (env : Readings)
  | Keypress (key : jsstring) (env : Readings)
  | ChangeRow (row : nat)
  | ClickDeleteRow (row : nat).

Definition handle (ev : Event) : JS unit :=
  match ev with
  | TypeText s => set_taskInput s
  | ClickAdd env => addButton_click env
  | Keypress key env => taskInput_keypress key env
  | ChangeRow row => change_row row
  | ClickDeleteRow row => click_delete_row row
  end.

Fixpoint session (evs : list Event) (w : World) : World :=
  match evs with
  | [] => w
  | ev :: evs' => session evs' (exec (handle ev) w)
  end.

End MoreNotions.

(** * Facts about the reference engine *)

Module RefFacts.
Import Ref.

Lemma below_forallb (P : N -> bool) (n : nat) :
  forallb P (map N.of_nat (seq 0 n)) = true ->
  forall d, d < N.of_nat n -> P d = true.
Proof.
  intros H d Hd.
  rewrite forallb_forall in H. apply H.
  rewrite in_map_iff. exists (N.to_nat d). split; [lia |].
  apply in_seq. lia.
Qed.

Lemma hex_value_digit d : d < 16 -> hex_value (hex_digit d) = Some d.
Proof.
  intros Hd.
  pose proof (below_forallb
    (fun d => bool_decide (hex_value (hex_digit d) = Some d)) 16) as H.
  specialize (H eq_refl d Hd). by apply bool_decide_eq_true in H.
Qed.

Lemma hex_recompose c :
  c < 65536 ->
  ((c / 4096 mod 16 * 16 + c / 256 mod 16) * 16 + c / 16 mod 16) * 16 + c mod 16 = c.
Proof. intros Hc. zify. Z.to_euclidean_division_equations. lia. Qed.

Lemma parse_unicode_escape c rest acc :
  c < 65536 ->
  parse_string_body (unicode_escape c ++ rest) acc = parse_string_body rest (c :: acc).
Proof.
  intros Hc. unfold unicode_escape. cbn [app parse_string_body N.eqb Pos.eqb].
  rewrite !hex_value_digit by (apply N.mod_lt; lia).
  by rewrite hex_recompose.
Qed.

Lemma parse_plain_unit c rest acc :
  32 <= c -> c <> 34 -> c <> 92 ->
  parse_string_body (c :: rest) acc = parse_string_body rest (c :: acc).
Proof.
  intros H32 H34 H92. cbn [parse_string_body].
  destruct (N.eqb_spec c 34); [done |].
  destruct (N.eqb_spec c 92); [done |].
  destruct (N.ltb_spec c 32); [lia | done].
Qed.

Lemma parse_escape_unit c rest acc :
  parse_string_body (escape_unit c ++ rest) acc = parse_string_body rest (c :: acc).
Proof.
  unfold escape_unit.
  repeat (match goal with
          | |- context [N.eqb c ?k] => destruct (N.eqb_spec c k); [by subst |]
          end).
  destruct (N.ltb_spec c 32).
  - apply parse_unicode_escape. lia.
  - by apply parse_plain_unit.
Qed.

(** A quoted string is read back, whatever follows the closing quote. *)
Lemma parse_quote_units s : forall acc rest,
  parse_string_body (quote_units s ++ 34 :: rest) acc = Some (rev acc ++ s, rest).
Proof.
  remember (length s) as n eqn:Hn. revert s Hn.
  induction n as [n IH] using lt_wf_ind. intros s Hn acc rest.
  destruct s as [| c s'].
  - cbn. by rewrite app_nil_r.
  - cbn [quote_units].
    assert (Hstep : forall s1 acc1, (length s1 < n)%nat ->
              parse_string_body (quote_units s1 ++ 34 :: rest) acc1
              = Some (rev acc1 ++ s1, rest)).
    { intros s1 acc1 Hlt. by eapply IH. }
    assert (Hcons : forall x (a l : jsstring), rev (x :: a) ++ l = rev a ++ x :: l).
    { intros x a l. cbn [rev]. by rewrite <- app_assoc. }
    cbn [length] in Hn.
    destruct (is_high_surrogate c) eqn:Hhi.
    + unfold is_high_surrogate in Hhi.
      apply andb_true_iff in Hhi as [Hlo%N.leb_le Hup%N.leb_le].
      destruct s' as [| c2 s''].
      * rewrite parse_unicode_escape by lia. by cbn.
      * destruct (is_low_surrogate c2) eqn:Hl2.
        -- unfold is_low_surrogate in Hl2.
           apply andb_true_iff in Hl2 as [Hlo2%N.leb_le Hup2%N.leb_le].
           cbn [app]. rewrite !parse_plain_unit by lia.
           cbn [length] in Hn. rewrite Hstep by lia.
           by rewrite !Hcons.
        -- rewrite <- app_assoc, parse_unicode_escape by lia.
           rewrite Hstep by lia. by rewrite Hcons.
    + destruct (is_low_surrogate c) eqn:Hl.
      * unfold is_low_surrogate in Hl.
        apply andb_true_iff in Hl as [Hlo%N.leb_le Hup%N.leb_le].
        rewrite <- app_assoc, parse_unicode_escape by lia.
        rewrite Hstep by lia. by rewrite Hcons.
      * rewrite <- app_assoc, parse_escape_unit.
        rewrite Hstep by lia. by rewrite Hcons.
Qed.

Lemma parse_value_string n s rest :
  parse_value (S n) (print_string s ++ rest) = Some (JStr s, rest).
Proof.
  unfold print_string. cbn [parse_value app skip_ws is_ws N.eqb Pos.eqb orb].
  rewrite <- app_assoc. cbn [app].
  by rewrite parse_quote_units.
Qed.

Lemma parse_uint_units d c rest :
  digit_cons c = None ->
  parse_uint (units_of_uint d ++ c :: rest) = (d, c :: rest).
Proof.
  intros Hc. induction d as [| d IH | d IH | d IH | d IH | d IH | d IH
                             | d IH | d IH | d IH | d IH];
    cbn [units_of_uint app parse_uint]; [by rewrite Hc | ..];
    by (cbn [digit_cons N.eqb Pos.eqb]; rewrite IH).
Qed.

Lemma to_int_normal z :
  match Z.to_int z with Decimal.Pos d | Decimal.Neg d => d = Decimal.unorm d end.
Proof.
  pose proof (DecimalZ.to_of (Z.to_int z)) as H.
  rewrite DecimalZ.of_to in H.
  destruct (Z.to_int z) as [d | d]; cbn in H.
  - congruence.
  - unfold Decimal.unorm. destruct (Decimal.nzhead d); congruence.
Qed.

(** An integer is read back when what follows is none of a digit, a sign, a
    fraction or an exponent. *)
Lemma parse_number_Z z c rest :
  digit_cons c = None -> (c =? 45) = false -> fraction_follows (c :: rest) = false ->
  parse_number (print_Z z ++ c :: rest) = Some (JNum (Fin z), c :: rest).
Proof.
  intros Hd Hm Hf.
  pose proof (to_int_normal z) as Hnorm. pose proof (DecimalZ.of_to z) as Hz.
  unfold print_Z. destruct (Z.to_int z) as [d | d].
  - unfold parse_number.
    assert (Hsign : split_sign (units_of_uint d ++ c :: rest)
                    = (false, units_of_uint d ++ c :: rest)).
    { destruct d; cbn [split_sign units_of_uint app N.eqb Pos.eqb]; rewrite ?Hm; done. }
    rewrite Hsign, parse_uint_units by done.
    destruct (Decimal.uint_eq_dec d (Decimal.unorm d)); [| done].
    by rewrite Hf, Hz.
  - unfold parse_number. cbn [split_sign app N.eqb Pos.eqb].
    rewrite parse_uint_units by done.
    destruct (Decimal.uint_eq_dec d (Decimal.unorm d)); [| done].
    by rewrite Hf, Hz.
Qed.

Lemma units_of_uint_head d rest :
  d <> Decimal.Nil ->
  exists c r, units_of_uint d ++ rest = c :: r /\ 48 <= c <= 57.
Proof.
  intros Hd. destruct d; [done | ..]; cbn [units_of_uint app]; eexists _, _; (split; [done | lia]).
Qed.

Lemma print_Z_head z rest :
  exists c r, print_Z z ++ rest = c :: r /\ (c = 45 \/ 48 <= c <= 57).
Proof.
  pose proof (to_int_normal z) as Hnorm. unfold print_Z.
  destruct (Z.to_int z) as [d | d].
  - destruct (units_of_uint_head d rest) as (c & r & -> & Hc).
    + intros ->. done.
    + eauto.
  - cbn [app]. eauto.
Qed.

Lemma parse_value_Z n z c rest :
  digit_cons c = None -> (c =? 45) = false -> fraction_follows (c :: rest) = false ->
  parse_value (S n) (print_Z z ++ c :: rest) = Some (JNum (Fin z), c :: rest).
Proof.
  intros Hd Hm Hf.
  rewrite <- (parse_number_Z z c rest Hd Hm Hf).
  destruct (print_Z_head z (c :: rest)) as (h & r & -> & Hh).
  cbn [parse_value].
  assert (Hws : skip_ws (h :: r) = h :: r).
  { cbn [skip_ws]. unfold is_ws.
    destruct (N.eqb_spec h 32); [lia |]. destruct (N.eqb_spec h 9); [lia |].
    destruct (N.eqb_spec h 10); [lia |]. destruct (N.eqb_spec h 13); [lia | done]. }
  rewrite Hws.
  destruct (N.eqb_spec h 34); [lia |]. destruct (N.eqb_spec h 91); [lia |].
  destruct (N.eqb_spec h 123); [lia |].
  change (lit "true") with [116; 114; 117; 101].
  change (lit "false") with [102; 97; 108; 115; 101].
  change (lit "null") with [110; 117; 108; 108].
  cbn [strip_prefix].
  destruct (N.eqb_spec 116 h); [lia |].
  destruct (N.eqb_spec 102 h); [lia |].
  destruct (N.eqb_spec 110 h); [lia | done].
Qed.

Lemma parse_value_bool n (b : bool) rest :
  parse_value (S n) (lit (if b then "true" else "false") ++ rest) = Some (JBool b, rest).
Proof. by destruct b. Qed.

(** One member [key:value] followed by a comma or by the closing brace. *)
Lemma parse_members_step fuel k vtext v c more :
  parse_value fuel (vtext ++ c :: more) = Some (v, c :: more) ->
  is_ws c = false ->
  parse_members (S fuel) (print_string k ++ 58 :: vtext ++ c :: more)
  = if c =? 44 then
      match parse_members fuel more with
      | Some (ps, r) => Some ((k, v) :: ps, r)
      | None => None
      end
    else if c =? 125 then Some ([(k, v)], more) else None.
Proof.
  intros Hv Hc. unfold print_string.
  cbn [parse_members app skip_ws is_ws N.eqb Pos.eqb orb].
  rewrite <- app_assoc. cbn [app]. rewrite parse_quote_units.
  cbn [rev app skip_ws is_ws N.eqb Pos.eqb orb].
  rewrite Hv. cbn [skip_ws]. by rewrite Hc.
Qed.

Lemma parse_value_object fuel k more :
  parse_value (S fuel) (123 :: print_string k ++ more)
  = match parse_members fuel (print_string k ++ more) with
    | Some (ps, r) => Some (JObj ps, r)
    | None => None
    end.
Proof. reflexivity. Qed.

Lemma print_value_task t :
  print_value (task_object t)
  = 123 :: (print_string (lit "id") ++ 58 :: print_string (id t) ++ 44 ::
            print_string (lit "text") ++ 58 :: print_string (text t) ++ 44 ::
            print_string (lit "completed") ++ 58 ::
              lit (if completed t then "true" else "false") ++ 44 ::
            print_string (lit "createdAt") ++ 58 :: print_Z (createdAt t) ++ [125]).
Proof.
  destruct t as [i x c n]. unfold task_object, task_literal.
  cbn [print_value map omap join is_undefined print_number id text
       completed createdAt option_bind mbind].
  destruct c; cbn [print_value list_omap join];
    repeat first [rewrite <- app_assoc | progress cbn [app]]; done.
Qed.

Lemma parse_value_task n t rest :
  parse_value (6 + n) (print_value (task_object t) ++ rest) = Some (task_object t, rest).
Proof.
  rewrite print_value_task.
  change (6 + n)%nat with (S (S (S (S (S (S n)))))).
  repeat first [rewrite <- app_assoc | progress cbn [app]].
  rewrite parse_value_object.
  rewrite (parse_members_step _ _ _ (JStr (id t))) by (apply parse_value_string || done).
  cbn [N.eqb Pos.eqb].
  rewrite (parse_members_step _ _ _ (JStr (text t))) by (apply parse_value_string || done).
  cbn [N.eqb Pos.eqb].
  rewrite (parse_members_step _ _ _ (JBool (completed t))) by (apply parse_value_bool || done).
  cbn [N.eqb Pos.eqb].
  rewrite (parse_members_step _ _ _ (JNum (Fin (createdAt t))))
    by (by apply parse_value_Z || done).
  cbn [N.eqb Pos.eqb].
  reflexivity.
Qed.

Lemma join_cons2 sep (x y : jsstring) l :
  join sep (x :: y :: l) = x ++ sep :: join sep (y :: l).
Proof. reflexivity. Qed.

Lemma parse_elements_tasks ts : forall t n rest,
  parse_elements (length ts + 7 + n)
    (join 44 (map print_value (tasks_array (t :: ts))) ++ 93 :: rest)
  = Some (tasks_array (t :: ts), rest).
Proof.
  induction ts as [| t' ts IH]; intros t n rest.
  - change (length (@nil Task) + 7 + n)%nat with (S (6 + n)).
    cbn [tasks_array map join parse_elements].
    rewrite parse_value_task. reflexivity.
  - replace (length (t' :: ts) + 7 + n)%nat with (S (6 + (length ts + 1 + n)))
      by (cbn [length]; lia).
    cbn [tasks_array map]. rewrite join_cons2, <- app_assoc. cbn [parse_elements app].
    rewrite parse_value_task. cbn [skip_ws is_ws N.eqb Pos.eqb orb].
    replace (6 + (length ts + 1 + n))%nat with (length ts + 7 + n)%nat by lia.
    specialize (IH t' n rest). cbn [tasks_array map] in IH. by rewrite IH.
Qed.

Lemma length_print_task t : (6 <= length (print_value (task_object t)))%nat.
Proof.
  rewrite print_value_task. unfold print_string.
  repeat first [rewrite length_app | progress cbn [length]]. lia.
Qed.

Lemma length_join_tasks ts :
  (6 * length ts <= length (join 44 (map print_value (tasks_array ts))))%nat.
Proof.
  induction ts as [| t ts IH]; [cbn; lia |].
  pose proof (length_print_task t) as Ht.
  cbn [tasks_array map join length].
  destruct ts as [| t' ts]; [cbn [length map]; lia |].
  cbn [map]. rewrite length_app. cbn [length tasks_array map] in *. lia.
Qed.

Lemma parse_value_array_open fuel x :
  parse_value (S fuel) (91 :: 123 :: x)
  = match parse_elements fuel (123 :: x) with
    | Some (l, r) => Some (JArr l, r)
    | None => None
    end.
Proof. reflexivity. Qed.

Lemma parse_stringify_tasks ts :
  parse (stringify (JArr (tasks_array ts))) = Some (JArr (tasks_array ts)).
Proof.
  destruct ts as [| t ts]; [reflexivity |].
  unfold parse, stringify. cbn [print_value].
  pose proof (length_join_tasks (t :: ts)) as Hlen.
  set (body := join 44 (map print_value (tasks_array (t :: ts)))) in *.
  cbn [length] in *. rewrite length_app in *. cbn [length] in Hlen |- *.
  replace (S (length body + 1))%nat
    with (length ts + 7 + (length body - length ts - 5))%nat by lia.
  assert (Hopen : exists x, body ++ [93] = 123 :: x).
  { subst body. cbn [tasks_array map join]. rewrite print_value_task.
    destruct (map task_object ts); cbn [map app]; eauto. }
  destruct Hopen as [x Hx]. rewrite Hx, parse_value_array_open, <- Hx.
  subst body. by rewrite parse_elements_tasks.
Qed.

#[export] Instance RefJSON_laws : JSONLaws RefJSON.
Proof.
  split.
  - reflexivity.
  - apply parse_stringify_tasks.
Qed.

(** ** Objects with scalar members, in any order *)

Lemma print_value_scalars ps :
  Forall (fun kv => scalar kv.2 = true) ps ->
  print_value (JObj ps)
  = 123 :: join 44 (map (fun kv => print_string kv.1 ++ 58 :: print_value kv.2) ps)
    ++ [125].
Proof.
  intros Hps. cbn [print_value]. do 3 f_equal.
  induction Hps as [| [k v] ps Hv Hps IH]; [done |].
  cbn [map omap list_omap fst snd] in *.
  destruct v; try done; cbn [is_undefined]; by rewrite IH.
Qed.

Lemma parse_value_scalar n v c more :
  scalar v = true -> c = 44 \/ c = 125 ->
  parse_value (S n) (print_value v ++ c :: more) = Some (v, c :: more).
Proof.
  intros Hv Hc. destruct v as [| | b | [z | |] | s | |]; try done.
  - destruct b; [apply (parse_value_bool n true) | apply (parse_value_bool n false)].
  - cbn [print_value print_number].
    apply parse_value_Z; by destruct Hc as [-> | ->].
  - apply parse_value_string.
Qed.

Lemma parse_members_scalars ps : forall kv fuel rest,
  Forall (fun kv => scalar kv.2 = true) (kv :: ps) ->
  (length ps + 2 <= fuel)%nat ->
  parse_members fuel
    (join 44 (map (fun kv => print_string kv.1 ++ 58 :: print_value kv.2) (kv :: ps))
     ++ 125 :: rest)
  = Some (kv :: ps, rest).
Proof.
  induction ps as [| kv' ps IH]; intros [k v] fuel rest Hall Hfuel;
    apply Forall_cons in Hall as [Hv Hall]; cbn [fst snd] in Hv.
  - destruct fuel as [| [| fuel]]; [cbn in Hfuel; lia .. |].
    cbn [map join fst snd]. rewrite <- app_assoc. cbn [app].
    rewrite (parse_members_step _ _ _ v)
      by first [apply parse_value_scalar; [done | by right] | done].
    reflexivity.
  - destruct fuel as [| [| fuel]]; [cbn in Hfuel; lia .. |].
    cbn [map]. rewrite join_cons2. cbn [fst snd].
    repeat first [rewrite <- app_assoc | progress cbn [app]].
    rewrite (parse_members_step _ _ _ v)
      by first [apply parse_value_scalar; [done | by left] | done].
    cbn [N.eqb Pos.eqb].
    specialize (IH kv' (S fuel) rest Hall ltac:(cbn [length] in Hfuel; lia)).
    match goal with
    | |- match ?x with _ => _ end = _ =>
        replace x with (Some (kv' :: ps, rest)) by (symmetry; exact IH)
    end.
    reflexivity.
Qed.

Lemma parse_value_scalars_object ps fuel rest :
  ps <> [] ->
  Forall (fun kv => scalar kv.2 = true) ps ->
  (length ps + 2 <= fuel)%nat ->
  parse_value fuel (print_value (JObj ps) ++ rest) = Some (JObj ps, rest).
Proof.
  intros Hne Hall Hfuel. rewrite print_value_scalars by done.
  destruct ps as [| [k v] ps]; [done |].
  destruct fuel as [| fuel]; [lia |].
  pose proof (parse_members_scalars ps (k, v) fuel rest Hall) as Hm.
  cbn [length] in Hfuel. specialize (Hm ltac:(lia)).
  repeat first [rewrite <- app_assoc | progress cbn [app]].
  set (members := join 44 _) in *.
  assert (Hopen : exists x, members = print_string k ++ x).
  { subst members. destruct ps; cbn [map join fst snd];
      [| rewrite <- app_assoc]; eauto. }
  destruct Hopen as [x Hx]. rewrite Hx, <- app_assoc, parse_value_object.
  rewrite app_assoc, <- Hx. by rewrite Hm.
Qed.

Lemma length_join_lower sep (parts : list jsstring) :
  (length parts <= S (length (join sep parts)))%nat.
Proof.
  induction parts as [| x [| y parts] IH]; cbn [join length] in *; [lia .. |].
  rewrite length_app. cbn [length]. lia.
Qed.

Lemma parse_elements_objects l : forall v fuel rest,
  Forall (fun v => exists ps, v = JObj ps /\ length ps = 4%nat
                              /\ Forall (fun kv => scalar kv.2 = true) ps) (v :: l) ->
  (length l + 7 <= fuel)%nat ->
  parse_elements fuel (join 44 (map print_value (v :: l)) ++ 93 :: rest)
  = Some (v :: l, rest).
Proof.
  induction l as [| v' l IH]; intros v fuel rest Hall Hfuel;
    apply Forall_cons in Hall as [(ps & -> & Hlen & Hps) Hall];
    (destruct fuel as [| fuel]; [lia |]);
    assert (Hne : ps <> []) by (by destruct ps).
  - cbn [map join parse_elements].
    rewrite (parse_value_scalars_object ps fuel) by (cbn [length] in Hfuel; done || lia).
    reflexivity.
  - cbn [map]. rewrite join_cons2, <- app_assoc. cbn [parse_elements app].
    rewrite (parse_value_scalars_object ps fuel) by (cbn [length] in Hfuel; done || lia).
    cbn [skip_ws is_ws N.eqb Pos.eqb orb].
    specialize (IH v' fuel rest Hall). cbn [map] in IH.
    rewrite IH by (cbn [length] in Hfuel; lia). reflexivity.
Qed.

(** A value in the documented layout with a finite [createdAt] has four
    members, each a string, a boolean or an integer. *)
Lemma lookup_prop_elem k ps v : lookup_prop k ps = Some v -> (k, v) ∈ ps.
Proof.
  induction ps as [| [k' v'] ps IH]; [done |]. cbn [lookup_prop].
  unfold jsstring_eqb. case_bool_decide as Hk.
  - intros [= ->]. subst k'. apply list_elem_of_here.
  - intros H. apply list_elem_of_further, IH, H.
Qed.

Lemma documented_scalars v :
  documented_task v = true -> finite_createdAt v = true ->
  exists ps, v = JObj ps /\ length ps = 4%nat
             /\ Forall (fun kv => scalar kv.2 = true) ps.
Proof.
  destruct v as [| | | | | | ps]; try done. cbn [documented_task finite_createdAt].
  intros Hdoc Hfin. exists ps. split; [done |].
  repeat (apply andb_true_iff in Hdoc as [Hdoc ?]).
  apply Nat.eqb_eq in Hdoc. split; [done |].
  destruct (lookup_prop (lit "id") ps) as [[| | | | a | |] |] eqn:Hi; try done.
  destruct (lookup_prop (lit "text") ps) as [[| | | | b | |] |] eqn:Ht; try done.
  destruct (lookup_prop (lit "completed") ps) as [[| | c | | | |] |] eqn:Hc; try done.
  destruct (lookup_prop (lit "createdAt") ps) as [[| | | [z | |] | | |] |] eqn:Hn; try done.
  set (fields := [(lit "id", JStr a); (lit "text", JStr b);
                  (lit "completed", JBool c); (lit "createdAt", JNum (Fin z))]).
  assert (Hperm : fields ≡ₚ ps).
  { apply submseteq_length_Permutation; [| by rewrite Hdoc].
    apply NoDup_submseteq.
    - apply (NoDup_fmap_1 fst). apply (bool_decide_unpack _). by vm_compute.
    - intros x Hx. subst fields.
      repeat (apply elem_of_cons in Hx as [-> | Hx]; [by apply lookup_prop_elem |]).
      by apply elem_of_nil in Hx. }
  rewrite <- Hperm. subst fields. by repeat constructor.
Qed.

Lemma length_print_object ps :
  length ps = 4%nat -> Forall (fun kv => scalar kv.2 = true) ps ->
  (5 <= length (print_value (JObj ps)))%nat.
Proof.
  intros Hlen Hps. rewrite print_value_scalars by done.
  cbn [length]. rewrite length_app. cbn [length].
  pose proof (length_join_lower 44
    (map (fun kv => print_string kv.1 ++ 58 :: print_value kv.2) ps)) as Hj.
  rewrite length_map, Hlen in Hj. lia.
Qed.

Lemma length_join_objects l :
  Forall (fun v => exists ps, v = JObj ps /\ length ps = 4%nat
                              /\ Forall (fun kv => scalar kv.2 = true) ps) l ->
  (5 * length l <= length (join 44 (map print_value l)))%nat.
Proof.
  induction 1 as [| v l (ps & -> & Hlen & Hps) Hl IH]; [cbn; lia |].
  pose proof (length_print_object ps Hlen Hps) as Hv.
  destruct l as [| v' l]; [cbn [map join length] in *; lia |].
  cbn [map]. rewrite join_cons2, length_app. cbn [length map] in *. lia.
Qed.

Lemma parse_stringify_layout tasks :
  documented_layout (JArr tasks) = true ->
  forallb finite_createdAt tasks = true ->
  parse (stringify (JArr tasks)) = Some (JArr tasks).
Proof.
  cbn [documented_layout]. intros Hdoc Hfin.
  assert (Hall : Forall (fun v => exists ps, v = JObj ps /\ length ps = 4%nat
                           /\ Forall (fun kv => scalar kv.2 = true) ps) tasks).
  { apply Forall_forall. intros v Hv. apply list_elem_of_In in Hv.
    apply documented_scalars.
    - by apply (proj1 (forallb_forall _ _) Hdoc).
    - by apply (proj1 (forallb_forall _ _) Hfin). }
  destruct tasks as [| v l]; [reflexivity |].
  unfold parse, stringify. cbn [print_value].
  pose proof (length_join_objects (v :: l) Hall) as Hlen.
  set (body := join 44 (map print_value (v :: l))) in *.
  cbn [length] in *. rewrite length_app. cbn [length].
  assert (Hopen : exists x, body ++ [93] = 123 :: x).
  { subst body. apply Forall_cons in Hall as [(ps & -> & _ & Hps) _].
    cbn [map]. rewrite print_value_scalars by done.
    destruct (map print_value l); cbn [join app]; eauto. }
  destruct Hopen as [x Hx]. rewrite Hx, parse_value_array_open, <- Hx.
  subst body. rewrite parse_elements_objects by (done || lia). reflexivity.
Qed.

#[export] Instance RefJSON_layout : JSONLayoutLaw RefJSON.
Proof. split. apply parse_stringify_layout. Qed.

End RefFacts.

(** * Facts about the script *)

Lemma bind_returns {A B} (c : JS A) (k : A -> JS B) w a w' :
  c w = Returns a w' -> bind c k w = k a w'.
Proof. intros H. unfold bind. by rewrite H. Qed.

Lemma bind_throws {A B} (c : JS A) (k : A -> JS B) w e w' :
  c w = Throws e w' -> bind c k w = Throws e w'.
Proof. intros H. unfold bind. by rewrite H. Qed.

(** Run the first computation of a sequence, whose outcome [H] gives. *)
Ltac step H := erewrite bind_returns; [| apply H].

Section ScriptFacts.
Context {J : JSON}.

Lemma with_console_same w : with_console (console w) w = w.
Proof. by destruct w. Qed.

(** ** Reading the storage *)

Lemma loadTasks_cases w :
  loadTasks w
  = if accessible (localStorage w) then
      match stored w with
      | None | Some [] => Returns [] w
      | Some s =>
          match JSON_parse s with
          | Some (JArr l) => Returns l w
          | Some _ => Returns [] w
          | None =>
              Returns [] (with_console (console w ++ [(MSG_LOAD_FAILED, SyntaxError)]) w)
          end
      end
    else Returns [] (with_console (console w ++ [(MSG_LOAD_FAILED, SecurityError)]) w).
Proof.
  unfold loadTasks, try_catch, bind, getItem, stored.
  destruct (accessible (localStorage w)); [| reflexivity].
  destruct (items (localStorage w) !! STORAGE_KEY) as [[| c s] |]; try reflexivity.
  destruct (JSON_parse (c :: s)) as [[]|]; reflexivity.
Qed.

Lemma loadTasks_run w : exists c, loadTasks w = Returns (loaded w) (with_console c w).
Proof.
  unfold loaded. rewrite loadTasks_cases.
  destruct (accessible (localStorage w)); [| by eexists].
  destruct (stored w) as [[| c s] |];
    [exists (console w); by rewrite with_console_same ..
    | destruct (JSON_parse (c :: s)) as [[]|];
        solve [ exists (console w); by rewrite with_console_same | by eexists ]
    | exists (console w); by rewrite with_console_same ].
Qed.

Lemma loaded_cases w :
  loaded w
  = if accessible (localStorage w) then
      match stored w with
      | None => []
      | Some s =>
          match s with
          | [] => []
          | _ => match JSON_parse s with Some (JArr l) => l | _ => [] end
          end
      end
    else [].
Proof.
  unfold loaded. rewrite loadTasks_cases.
  destruct (accessible (localStorage w)); [| reflexivity].
  destruct (stored w) as [[| c s] |]; try reflexivity.
  destruct (JSON_parse (c :: s)) as [[]|]; reflexivity.
Qed.

Lemma loaded_ext w1 w2 : localStorage w1 = localStorage w2 -> loaded w1 = loaded w2.
Proof. intros H. rewrite !loaded_cases. unfold stored. by rewrite H. Qed.

(** ** Writing the storage *)

Lemma saveTasks_cases tasks w :
  saveTasks tasks w
  = Returns tt
      match save_answer w tasks with
      | Accepted => with_localStorage (written tasks (localStorage w)) w
      | NoRoom => with_alerts (alerts w ++ [MSG_QUOTA]) w
      | Denied => with_console (console w ++ [(MSG_SAVE_FAILED, SecurityError)]) w
      end.
Proof.
  unfold saveTasks, try_catch, setItem, written, save_answer.
  by destruct (answer (localStorage w) (JSON_stringify (JArr tasks))).
Qed.

Lemma saveTasks_storage tasks w :
  localStorage (exec (saveTasks tasks) w) = written tasks (localStorage w).
Proof.
  unfold exec. rewrite saveTasks_cases. unfold written, save_answer.
  by destruct (answer (localStorage w) (JSON_stringify (JArr tasks))).
Qed.

Lemma written_refused tasks st :
  answer st (JSON_stringify (JArr tasks)) <> Accepted -> written tasks st = st.
Proof. unfold written. by destruct (answer st _). Qed.

Lemma answer_written tasks st value :
  answer (written tasks st) value = answer st value.
Proof. unfold written. by destruct (answer st (JSON_stringify _)). Qed.

Lemma accepted_accessible st value : answer st value = Accepted -> accessible st = true.
Proof. unfold answer. by destruct (accessible st). Qed.

Section Reading.
Context {L : JSONLaws J}.

Lemma stringify_tasks_nonempty ts : JSON_stringify (JArr (tasks_array ts)) <> [].
Proof.
  intros H. pose proof (JSON_tasks_roundtrip ts) as R.
  rewrite H, JSON_parse_empty in R. discriminate.
Qed.

(** After a write that the storage accepted, the tasks written are the
    tasks read. *)
Lemma loaded_written ts st w :
  answer st (JSON_stringify (JArr (tasks_array ts))) = Accepted ->
  localStorage w = written (tasks_array ts) st ->
  loaded w = tasks_array ts.
Proof.
  intros Ha Hw. rewrite loaded_cases. unfold stored. rewrite Hw.
  unfold written. rewrite Ha. cbn [accessible items].
  rewrite (accepted_accessible _ _ Ha), lookup_insert_eq.
  pose proof (stringify_tasks_nonempty ts) as Hne.
  destruct (JSON_stringify (JArr (tasks_array ts))) as [| c s] eqn:E; [done |].
  rewrite <- E. by rewrite JSON_tasks_roundtrip.
Qed.


(** Whatever the storage answers to the write, a collection of tasks is
    stored afterwards: the new one, or the old one. *)
Lemma loaded_after_write ts ts0 w w0 :
  loaded w0 = tasks_array ts0 ->
  localStorage w = written (tasks_array ts) (localStorage w0) ->
  loaded w = tasks_array (kept (save_answer w0 (tasks_array ts)) ts ts0).
Proof.
  intros Hl Hw. unfold kept, save_answer. case_bool_decide as Ha.
  - by eapply loaded_written.
  - rewrite written_refused in Hw by done.
    rewrite <- Hl. by apply loaded_ext.
Qed.

End Reading.

(** ** Tasks as values *)

Lemma task_object_inj t1 t2 : task_object t1 = task_object t2 -> t1 = t2.
Proof.
  destruct t1, t2. unfold task_object, task_literal. cbn. congruence.
Qed.

Lemma tasks_array_inj ts1 ts2 : tasks_array ts1 = tasks_array ts2 -> ts1 = ts2.
Proof.
  revert ts2. induction ts1 as [| t ts1 IH]; intros [| t' ts2] H; try done.
  cbn [tasks_array map] in H.
  pose proof (f_equal (hd JNull) H) as Ht. pose proof (f_equal (@tl _) H) as Hts.
  cbn [hd tl] in Ht, Hts.
  f_equal; [by apply task_object_inj | by apply IH].
Qed.

Lemma get_id t w : get (task_object t) (lit "id") w = Returns (JStr (id t)) w.
Proof. reflexivity. Qed.

Lemma get_text t w : get (task_object t) (lit "text") w = Returns (JStr (text t)) w.
Proof. reflexivity. Qed.

Lemma get_completed t w :
  get (task_object t) (lit "completed") w = Returns (JBool (completed t)) w.
Proof. reflexivity. Qed.

Lemma put_completed t b w :
  put (task_object t) (lit "completed") (JBool b) w
  = Returns (task_object {| id := id t; text := text t; completed := b;
                            createdAt := createdAt t |}) w.
Proof. reflexivity. Qed.

Lemma has_id_task taskId t w :
  has_id taskId (task_object t) w = Returns (bool_decide (id t = taskId)) w.
Proof. reflexivity. Qed.

(** ** The array functions on a collection of tasks *)

Lemma has_other_id_task taskId t w :
  has_other_id taskId (task_object t) w = Returns (negb (bool_decide (id t = taskId))) w.
Proof. reflexivity. Qed.

Lemma filter_other_id taskId ts w :
  Array_filter (has_other_id taskId) (tasks_array ts) w
  = Returns (tasks_array (filter (fun t => id t <> taskId) ts)) w.
Proof.
  induction ts as [| t ts IH]; [reflexivity |].
  cbn [tasks_array map Array_filter].
  step has_other_id_task.
  step IH.
  rewrite filter_cons. unfold ret.
  case_bool_decide; destruct (decide (id t <> taskId)); done.
Qed.

Lemma filter_completed ts w :
  Array_filter (fun t => let* c := get t (lit "completed") in ret (truthy c))
               (tasks_array ts) w
  = Returns (tasks_array (filter (fun t => completed t = true) ts)) w.
Proof.
  induction ts as [| t ts IH]; [reflexivity |].
  cbn [tasks_array map Array_filter].
  erewrite bind_returns; [| erewrite bind_returns by apply get_completed; reflexivity].
  step IH.
  rewrite filter_cons. unfold ret. cbn [truthy].
  destruct (completed t); destruct (decide _); done.
Qed.

Lemma find_by_id taskId ts : forall i w,
  Array_find_from i (has_id taskId) (tasks_array ts) w
  = Returns (match list_find (fun t => id t = taskId) ts with
             | Some (j, t) => Some ((i + j)%nat, task_object t)
             | None => None
             end) w.
Proof.
  induction ts as [| t ts IH]; intros i w; [reflexivity |].
  cbn [tasks_array map Array_find_from list_find].
  step has_id_task.
  case_bool_decide as Hid.
  - rewrite decide_True by done. unfold ret. by rewrite Nat.add_0_r.
  - rewrite decide_False by done. rewrite IH.
    destruct (list_find _ ts) as [[j t'] |]; cbn; [| done].
    by rewrite Nat.add_succ_r.
Qed.

Lemma toggle_first_insert taskId ts i t :
  list_find (fun t => id t = taskId) ts = Some (i, t) ->
  toggle_first taskId ts = <[i := flip t]> ts.
Proof.
  revert i. induction ts as [| t0 ts IH]; intros i H; [done |].
  cbn [list_find toggle_first] in *.
  case_bool_decide as Hid.
  - rewrite decide_True in H by done. by injection H as <- <-.
  - rewrite decide_False in H by done.
    destruct (list_find _ ts) as [[j t'] |] eqn:E; [| done].
    cbn in H. injection H as <- <-. cbn. f_equal. by apply IH.
Qed.

Lemma toggle_first_none taskId ts :
  list_find (fun t => id t = taskId) ts = None -> toggle_first taskId ts = ts.
Proof.
  induction ts as [| t0 ts IH]; intros H; [done |].
  cbn [list_find toggle_first] in *.
  case_bool_decide as Hid.
  - by rewrite decide_True in H by done.
  - rewrite decide_False in H by done.
    destruct (list_find _ ts) as [[j t'] |] eqn:E; [done |]. f_equal. by apply IH.
Qed.

Lemma flip_flip t : flip (flip t) = t.
Proof. destruct t as [i x c n]. unfold flip. cbn. by rewrite negb_involutive. Qed.

Lemma toggle_first_twice taskId ts :
  toggle_first taskId (toggle_first taskId ts) = ts.
Proof.
  induction ts as [| t ts IH]; [done |].
  cbn [toggle_first]. case_bool_decide as Hid.
  - cbn [toggle_first flip id]. rewrite bool_decide_true by done.
    by rewrite flip_flip.
  - cbn [toggle_first]. rewrite bool_decide_false by done. by rewrite IH.
Qed.

Lemma tasks_array_insert i t ts :
  <[i := task_object t]> (tasks_array ts) = tasks_array (<[i := t]> ts).
Proof. unfold tasks_array. by rewrite list_fmap_insert. Qed.

Lemma tasks_array_app ts1 ts2 :
  tasks_array ts1 ++ tasks_array ts2 = tasks_array (ts1 ++ ts2).
Proof. unfold tasks_array. by rewrite map_app. Qed.

(** ** Rendering *)

Lemma renderTaskItem_task t w :
  renderTaskItem (task_object t) w = Returns (task_item t) w.
Proof. reflexivity. Qed.

Lemma forEach_render ts : forall w,
  Array_forEach (fun task => let* taskElement := renderTaskItem task in
                             appendChild taskElement)
                (tasks_array ts) w
  = Returns tt (with_taskList (taskList w ++ map task_item ts) w).
Proof.
  induction ts as [| t ts IH]; intros w.
  - cbn. rewrite app_nil_r. by destruct w.
  - cbn [tasks_array map Array_forEach].
    erewrite bind_returns;
      [| erewrite bind_returns by apply renderTaskItem_task; reflexivity].
    rewrite IH. cbn [taskList with_taskList]. by rewrite <- app_assoc.
Qed.

Lemma updateStats_tasks ts w :
  loaded w = tasks_array ts ->
  exists c, updateStats w
  = Returns tt
      (with_stats (JNum (Fin (Z.of_nat (length ts))))
                  (JNum (Fin (Z.of_nat (count_completed ts))))
                  (JNum (Fin (Z.of_nat (length ts) - Z.of_nat (count_completed ts))))
                  (with_console c w)).
Proof.
  intros Hl. destruct (loadTasks_run w) as [c Hc]. exists c.
  unfold updateStats. step Hc.
  rewrite Hl. step filter_completed.
  unfold count_completed, tasks_array. by rewrite !length_map.
Qed.

(** On a collection of tasks [renderTasks] shows that collection and
    touches nothing but the page and the console. *)
Lemma renderTasks_tasks ts w :
  loaded w = tasks_array ts ->
  exists c, renderTasks w
  = Returns tt
      (with_stats (JNum (Fin (Z.of_nat (length ts))))
                  (JNum (Fin (Z.of_nat (count_completed ts))))
                  (JNum (Fin (Z.of_nat (length ts) - Z.of_nat (count_completed ts))))
                  (with_taskList (rendering ts) (with_console c w))).
Proof.
  intros Hl. destruct (loadTasks_run w) as [c Hc].
  unfold renderTasks. step Hc.
  erewrite bind_returns by reflexivity.
  rewrite Hl. unfold tasks_array at 1. rewrite length_map.
  set (w1 := with_taskList [] (with_console c w)).
  assert (Hdraw : (if (length ts =? 0)%nat
                   then appendChild (EmptyState MSG_EMPTY_STATE)
                   else Array_forEach
                          (fun task => let* taskElement := renderTaskItem task in
                                       appendChild taskElement)
                          (tasks_array ts)) w1
                  = Returns tt (with_taskList (rendering ts) w1)).
  { destruct ts as [| t ts]; [reflexivity |].
    cbn [length Nat.eqb]. by rewrite forEach_render. }
  step Hdraw.
  destruct (updateStats_tasks ts (with_taskList (rendering ts) w1)) as [c' Hc'].
  { rewrite <- Hl. by apply loaded_ext. }
  exists c'. by rewrite Hc'.
Qed.

(** ** What no rendering changes *)

Lemma quiet_refl w : quiet w w.
Proof. by repeat split. Qed.

Lemma quiet_trans w1 w2 w3 : quiet w1 w2 -> quiet w2 w3 -> quiet w1 w3.
Proof. unfold quiet. intros (? & ?) (? & ?). split; congruence. Qed.

Lemma quiet_bind {A B} (c : JS A) (k : A -> JS B) :
  is_quiet c -> (forall a, is_quiet (k a)) -> is_quiet (bind c k).
Proof.
  intros Hc Hk w. unfold exec, bind. specialize (Hc w). unfold exec in Hc.
  destruct (c w) as [a w' | e w']; [| done].
  eapply quiet_trans; [apply Hc | apply Hk].
Qed.

Lemma quiet_ret {A} (a : A) : is_quiet (ret a).
Proof. intros w. apply quiet_refl. Qed.

Lemma quiet_get v k : is_quiet (get v k).
Proof. intros w. destruct v; apply quiet_refl. Qed.

Lemma quiet_loadTasks : is_quiet loadTasks.
Proof.
  intros w. unfold exec. destruct (loadTasks_run w) as [c ->]. by repeat split.
Qed.

Lemma quiet_filter {A} (p : A -> JS bool) l :
  (forall x, is_quiet (p x)) -> is_quiet (Array_filter p l).
Proof.
  intros Hp. induction l as [| x l IH]; [apply quiet_ret |].
  cbn [Array_filter]. apply quiet_bind; [apply Hp |]. intros keep.
  apply quiet_bind; [apply IH |]. intros rest. apply quiet_ret.
Qed.

Lemma quiet_forEach {A} (f : A -> JS unit) l :
  (forall x, is_quiet (f x)) -> is_quiet (Array_forEach f l).
Proof.
  intros Hf. induction l as [| x l IH]; [apply quiet_ret |].
  cbn [Array_forEach]. apply quiet_bind; [apply Hf | by intros _].
Qed.

Lemma quiet_appendChild e : is_quiet (appendChild e).
Proof. intros w. by split. Qed.

Lemma quiet_clear_taskList : is_quiet clear_taskList.
Proof. intros w. by split. Qed.

Lemma quiet_show_stats t c p : is_quiet (show_stats t c p).
Proof. intros w. by split. Qed.

Create HintDb quiet.
#[local] Hint Resolve quiet_bind quiet_ret quiet_get quiet_loadTasks quiet_filter
  quiet_forEach quiet_appendChild quiet_clear_taskList quiet_show_stats : quiet.

Lemma quiet_updateStats : is_quiet updateStats.
Proof. unfold updateStats. eauto 10 with quiet. Qed.

Lemma quiet_renderTaskItem task : is_quiet (renderTaskItem task).
Proof. unfold renderTaskItem. eauto 10 with quiet. Qed.

(** [renderTasks] neither writes the storage nor alerts, also when it is
    interrupted by an exception. *)
Lemma quiet_renderTasks : is_quiet renderTasks.
Proof.
  unfold renderTasks. apply quiet_bind; [apply quiet_loadTasks |]. intros tasks.
  apply quiet_bind; [apply quiet_clear_taskList |]. intros _.
  apply quiet_bind; [| intros _; apply quiet_updateStats].
  destruct (length tasks =? 0)%nat;
    eauto 10 using quiet_renderTaskItem with quiet.
Qed.

(** Whatever array the storage holds, and whether or not the page can be
    drawn from it, [addTask] hands the loaded array with the new task at
    its end to the storage. *)
Lemma addTask_writes taskText env w :
  trim taskText <> [] -> (length (trim taskText) <= 200)%nat ->
  localStorage (exec (addTask taskText env) w)
  = written (loaded w ++ [task_object (new_task taskText env)]) (localStorage w).
Proof.
  intros Hne Hlen. unfold addTask, exec.
  destruct (trim taskText) as [| c0 s0] eqn:Et; [done |]. cbn [truthy negb].
  rewrite (proj2 (Nat.ltb_ge _ _)) by done.
  destruct (loadTasks_run w) as [c Hc]. step Hc.
  unfold new_task, task_object. cbn [id text completed createdAt]. rewrite Et.
  set (tasks := loaded w ++ _).
  rewrite (bind_returns _ _ _ _ _ (saveTasks_cases tasks (with_console c w))).
  set (w2 := match save_answer _ _ with Accepted => _ | NoRoom => _ | Denied => _ end).
  assert (Hw2 : localStorage w2 = written tasks (localStorage w)).
  { pose proof (saveTasks_storage tasks (with_console c w)) as H.
    unfold exec in H. by rewrite saveTasks_cases in H. }
  rewrite <- Hw2.
  pose proof (quiet_renderTasks w2) as [Hr _]. unfold exec in Hr.
  unfold bind. by destruct (renderTasks w2).
Qed.

(** ** Saving, then rendering

    The tail shared by the three operations. *)

Section Operations.
Context {L : JSONLaws J}.

Lemma save_then_render ts ts0 w :
  loaded w = tasks_array ts0 ->
  exists w2 w3,
    saveTasks (tasks_array ts) w = Returns tt w2
    /\ renderTasks w2 = Returns tt w3
    /\ localStorage w3 = written (tasks_array ts) (localStorage w)
    /\ alerts w3 = alerts_after_save w (tasks_array ts)
    /\ taskInput w3 = taskInput w
    /\ loaded w3 = tasks_array (kept (save_answer w (tasks_array ts)) ts ts0)
    /\ displays w3 (kept (save_answer w (tasks_array ts)) ts ts0).
Proof.
  intros Hl.
  assert (Hs := saveTasks_cases (tasks_array ts) w).
  assert (Hst := saveTasks_storage (tasks_array ts) w).
  unfold exec in Hst. rewrite Hs in Hst. cbn [world_of] in Hst.
  set (w2 := match save_answer w (tasks_array ts) with
             | Accepted => _ | NoRoom => _ | Denied => _ end) in *.
  assert (Hl2 : loaded w2 = tasks_array (kept (save_answer w (tasks_array ts)) ts ts0)).
  { by eapply loaded_after_write. }
  destruct (renderTasks_tasks _ w2 Hl2) as [c Hr].
  exists w2. eexists. split; [exact Hs |]. split; [exact Hr |].
  assert (Ha : alerts w2 = alerts_after_save w (tasks_array ts)
               /\ taskInput w2 = taskInput w).
  { unfold alerts_after_save. subst w2.
    by destruct (save_answer w (tasks_array ts)). }
  destruct Ha as [Ha Hi].
  split; [exact Hst |]. split; [exact Ha |]. split; [exact Hi |].
  split; [rewrite <- Hl2; by apply loaded_ext |].
  by repeat split.
Qed.

(** ** The three operations on a collection of tasks *)

Lemma addTask_tasks taskText env ts w :
  trim taskText <> [] -> (length (trim taskText) <= 200)%nat ->
  loaded w = tasks_array ts ->
  exists w',
    addTask taskText env w = Returns tt w'
    /\ localStorage w'
       = written (tasks_array (ts ++ [new_task taskText env])) (localStorage w)
    /\ alerts w' = alerts_after_save w (tasks_array (ts ++ [new_task taskText env]))
    /\ taskInput w' = []
    /\ loaded w'
       = tasks_array (kept (save_answer w (tasks_array (ts ++ [new_task taskText env])))
                           (ts ++ [new_task taskText env]) ts)
    /\ displays w' (kept (save_answer w (tasks_array (ts ++ [new_task taskText env])))
                         (ts ++ [new_task taskText env]) ts).
Proof.
  intros Hne Hlen Hl. unfold addTask.
  destruct (trim taskText) as [| c0 s0] eqn:Et; [done |]. cbn [truthy negb].
  rewrite (proj2 (Nat.ltb_ge _ _)) by done.
  destruct (loadTasks_run w) as [c Hc]. step Hc.
  rewrite Hl.
  change (task_literal _ (c0 :: s0) false _) with (task_object
    {| id := generateId (now_in_generateId env) (random_toString36 env);
       text := c0 :: s0; completed := false; createdAt := now_in_addTask env |}).
  change (tasks_array ts ++ [task_object ?t]) with (tasks_array ts ++ tasks_array [t]).
  rewrite tasks_array_app.
  assert (Hl1 : loaded (with_console c w) = tasks_array ts).
  { rewrite <- Hl. by apply loaded_ext. }
  destruct (save_then_render
              (ts ++ [{| id := generateId (now_in_generateId env) (random_toString36 env);
                         text := c0 :: s0; completed := false;
                         createdAt := now_in_addTask env |}]) ts _ Hl1)
    as (w2 & w3 & Hs & Hr & Hst & Ha & Hi & Hl3 & Hd).
  step Hs. step Hr.
  eexists. split; [reflexivity |].
  unfold new_task. rewrite Et.
  split; [exact Hst |]. split; [exact Ha |]. split; [reflexivity |].
  split; [transitivity (loaded w3); [by apply loaded_ext | exact Hl3] | exact Hd].
Qed.

Lemma deleteTask_tasks taskId ts w :
  loaded w = tasks_array ts ->
  exists w',
    deleteTask taskId w = Returns tt w'
    /\ localStorage w'
       = written (tasks_array (filter (fun t => id t <> taskId) ts)) (localStorage w)
    /\ alerts w'
       = alerts_after_save w (tasks_array (filter (fun t => id t <> taskId) ts))
    /\ taskInput w' = taskInput w
    /\ loaded w'
       = tasks_array (kept (save_answer w (tasks_array (filter (fun t => id t <> taskId) ts)))
                           (filter (fun t => id t <> taskId) ts) ts)
    /\ displays w' (kept (save_answer w (tasks_array (filter (fun t => id t <> taskId) ts)))
                         (filter (fun t => id t <> taskId) ts) ts).
Proof.
  intros Hl. unfold deleteTask.
  destruct (loadTasks_run w) as [c Hc]. step Hc.
  rewrite Hl. step filter_other_id.
  assert (Hl1 : loaded (with_console c w) = tasks_array ts).
  { rewrite <- Hl. by apply loaded_ext. }
  destruct (save_then_render (filter (fun t => id t <> taskId) ts) ts _ Hl1)
    as (w2 & w3 & Hs & Hr & Hst & Ha & Hi & Hl3 & Hd).
  step Hs. rewrite Hr.
  eexists. split; [reflexivity |].
  split; [exact Hst |]. split; [exact Ha |]. split; [exact Hi |].
  split; [exact Hl3 | exact Hd].
Qed.

Lemma toggleTask_found taskId ts w i t :
  loaded w = tasks_array ts ->
  list_find (fun t => id t = taskId) ts = Some (i, t) ->
  exists w',
    toggleTask taskId w = Returns tt w'
    /\ localStorage w'
       = written (tasks_array (toggle_first taskId ts)) (localStorage w)
    /\ alerts w' = alerts_after_save w (tasks_array (toggle_first taskId ts))
    /\ taskInput w' = taskInput w
    /\ loaded w'
       = tasks_array (kept (save_answer w (tasks_array (toggle_first taskId ts)))
                           (toggle_first taskId ts) ts)
    /\ displays w' (kept (save_answer w (tasks_array (toggle_first taskId ts)))
                         (toggle_first taskId ts) ts).
Proof.
  intros Hl Hf. unfold toggleTask, Array_find.
  destruct (loadTasks_run w) as [c Hc]. step Hc.
  rewrite Hl. step find_by_id.
  rewrite Hf. cbn [truthy task_object task_literal Nat.add].
  fold (task_literal (id t) (text t) (completed t) (Fin (createdAt t))).
  fold (task_object t).
  step get_completed.
  step put_completed.
  cbn [truthy]. fold (flip t).
  rewrite tasks_array_insert, <- (toggle_first_insert taskId ts i t Hf).
  assert (Hl1 : loaded (with_console c w) = tasks_array ts).
  { rewrite <- Hl. by apply loaded_ext. }
  destruct (save_then_render (toggle_first taskId ts) ts _ Hl1)
    as (w2 & w3 & Hs & Hr & Hst & Ha & Hi & Hl3 & Hd).
  step Hs. rewrite Hr.
  eexists. split; [reflexivity |].
  split; [exact Hst |]. split; [exact Ha |]. split; [exact Hi |].
  split; [exact Hl3 | exact Hd].
Qed.

End Operations.

(** With no task of that id, [toggleTask] reads the storage and stops. *)
Lemma toggleTask_missing taskId ts w :
  loaded w = tasks_array ts ->
  list_find (fun t => id t = taskId) ts = None ->
  exists c, toggleTask taskId w = Returns tt (with_console c w).
Proof.
  intros Hl Hf. unfold toggleTask, Array_find.
  destruct (loadTasks_run w) as [c Hc]. step Hc.
  rewrite Hl. step find_by_id.
  rewrite Hf. by exists c.
Qed.

Lemma find_id_in taskId ts :
  taskId ∈ map id ts ->
  exists i t, list_find (fun t => id t = taskId) ts = Some (i, t).
Proof.
  intros Hin. apply list_elem_of_In, in_map_iff in Hin as (t & Ht & Hin).
  apply list_elem_of_In in Hin.
  destruct (list_find (fun t => id t = taskId) ts) as [[i t'] |] eqn:E; [eauto |].
  apply list_find_None in E. rewrite Forall_forall in E. by destruct (E t Hin).
Qed.

Lemma find_id_not_in taskId ts :
  taskId ∉ map id ts -> list_find (fun t => id t = taskId) ts = None.
Proof.
  intros Hnot. apply list_find_None, Forall_forall. intros t Hin Hid.
  apply Hnot. apply list_elem_of_In, in_map_iff. exists t.
  split; [done | by apply list_elem_of_In].
Qed.

Lemma filter_id_not_in taskId ts :
  taskId ∉ map id ts -> filter (fun t => id t <> taskId) ts = ts.
Proof.
  intros Hnot. induction ts as [| t ts IH]; [done |].
  rewrite filter_cons. cbn [map] in Hnot.
  apply not_elem_of_cons in Hnot as [Hne Hnot].
  rewrite decide_True by done. f_equal. by apply IH.
Qed.

Lemma addTask_empty taskText env w :
  trim taskText = [] ->
  addTask taskText env w = Returns tt (with_alerts (alerts w ++ [MSG_EMPTY]) w).
Proof. intros Ht. unfold addTask. by rewrite Ht. Qed.

Lemma addTask_too_long taskText env w :
  (200 < length (trim taskText))%nat ->
  addTask taskText env w = Returns tt (with_alerts (alerts w ++ [MSG_TOO_LONG]) w).
Proof.
  intros Hlen. unfold addTask.
  destruct (trim taskText) as [| c s] eqn:Et; [cbn in Hlen; lia |].
  cbn [truthy negb]. by rewrite (proj2 (Nat.ltb_lt _ _)) by done.
Qed.

End ScriptFacts.

(** ** The ids that [generateId] makes *)

Section Ids.

Lemma value36_digit36 d : d < 36 -> value36 (digit36 d) = d.
Proof.
  intros Hd. unfold value36, digit36.
  destruct (d <? 10) eqn:E.
  - apply N.ltb_lt in E. rewrite (proj2 (N.ltb_lt _ _)) by lia. lia.
  - apply N.ltb_ge in E. rewrite (proj2 (N.ltb_ge _ _)) by lia. lia.
Qed.

Lemma decode36_snoc ds d : decode36 (ds ++ [d]) = decode36 ds * 36 + value36 d.
Proof. unfold decode36. by rewrite fold_left_app. Qed.

(** The digits that [toString36_pos] puts before [acc] denote [n], and
    their number is the number of base-36 digits of [n]. *)
Lemma toString36_pos_digits (fuel : nat) : forall n acc,
  n < 2 ^ N.of_nat fuel ->
  exists ds,
    toString36_pos fuel n acc = ds ++ acc
    /\ decode36 ds = n
    /\ n < 36 ^ N.of_nat (length ds)
    /\ (n <> 0 -> 36 ^ N.of_nat (length ds) <= 36 * n).
Proof.
  induction fuel as [| fuel IH]; intros n acc Hn.
  - exists []. cbn in Hn. cbn. repeat split; lia.
  - cbn [toString36_pos]. destruct (n <? 36) eqn:E.
    + apply N.ltb_lt in E. exists [digit36 n].
      split; [done |]. split.
      * unfold decode36. cbn [fold_left]. rewrite value36_digit36 by done. lia.
      * cbn [length]. change (36 ^ N.of_nat 1) with 36. lia.
    + apply N.ltb_ge in E.
      assert (Hm : n / 36 < 2 ^ N.of_nat fuel).
      { rewrite Nat2N.inj_succ, N.pow_succ_r' in Hn.
        apply N.Div0.div_lt_upper_bound. lia. }
      destruct (IH (n / 36) (digit36 (n mod 36) :: acc) Hm)
        as (ds & Hrun & Hdec & Hlt & Hge).
      exists (ds ++ [digit36 (n mod 36)]).
      split; [by rewrite Hrun, <- app_assoc |].
      pose proof (N.mod_lt n 36 ltac:(lia)) as Hmod.
      pose proof (N.div_mod n 36 ltac:(lia)) as Hdiv.
      split; [rewrite decode36_snoc, Hdec, value36_digit36 by done; lia |].
      rewrite length_app. cbn [length].
      replace (N.of_nat (length ds + 1)) with (N.succ (N.of_nat (length ds))) by lia.
      rewrite N.pow_succ_r'.
      assert (n / 36 <> 0) by (intros H0; rewrite H0 in Hdiv; lia).
      specialize (Hge ltac:(done)). clear Hm Hrun Hdec Hn.
      set (q := n / 36) in *. set (r := n mod 36) in *.
      set (p := 36 ^ N.of_nat (length ds)) in *. clearbody q r p.
      split; [lia | intros _; lia].
Qed.

Lemma toString36_digits (z : Z) :
  (0 <= z)%Z ->
  decode36 (toString36 z) = Z.to_N z
  /\ Z.to_N z < 36 ^ N.of_nat (length (toString36 z))
  /\ (Z.to_N z <> 0 -> 36 ^ N.of_nat (length (toString36 z)) <= 36 * Z.to_N z).
Proof.
  intros Hz. unfold toString36.
  rewrite (proj2 (Z.ltb_ge _ _)) by done.
  replace (Z.abs_N z) with (Z.to_N z) by lia.
  set (n := Z.to_N z).
  assert (Hn : n < 2 ^ N.of_nat (S (N.to_nat (N.log2 n)))).
  { rewrite Nat2N.inj_succ, N2Nat.id.
    destruct (N.eq_dec n 0) as [-> | Hne]; [done |].
    apply N.log2_spec. lia. }
  destruct (toString36_pos_digits _ n [] Hn) as (ds & Hrun & Hdec & Hlt & Hge).
  rewrite Hrun, app_nil_r. auto.
Qed.

Lemma toString36_length_8 (z : Z) :
  (36 ^ 7 <= z < 36 ^ 8)%Z -> length (toString36 z) = 8%nat.
Proof.
  intros Hz. destruct (toString36_digits z ltac:(lia)) as (_ & Hlt & Hge).
  set (len := length (toString36 z)) in *.
  assert (H7 : 36 ^ 7 <= Z.to_N z) by (change (36 ^ 7) with (Z.to_N (36 ^ 7)); lia).
  assert (H8 : Z.to_N z < 36 ^ 8) by (change (36 ^ 8) with (Z.to_N (36 ^ 8)); lia).
  specialize (Hge ltac:(lia)).
  assert (Hlo : 36 ^ 7 < 36 ^ N.of_nat len) by lia.
  assert (Hhi : 36 ^ N.of_nat len < 36 ^ 9)
    by (change (36 ^ 9) with (36 * 36 ^ 8); lia).
  apply N.pow_lt_mono_r_iff in Hlo; [| lia].
  apply N.pow_lt_mono_r_iff in Hhi; [| lia]. lia.
Qed.

(** In that range two ids are the same only if they were made from the
    same clock reading and the same random digits. *)
Lemma generateId_inj (now1 now2 : Z) (random1 random2 : jsstring) :
  (36 ^ 7 <= now1 < 36 ^ 8)%Z ->
  (36 ^ 7 <= now2 < 36 ^ 8)%Z ->
  generateId now1 random1 = generateId now2 random2 ->
  now1 = now2 /\ substring 2 random1 = substring 2 random2.
Proof.
  intros H1 H2. unfold generateId. intros He.
  apply app_inj_1 in He as [Hs Hr];
    [| by rewrite !toString36_length_8].
  split; [| exact Hr].
  destruct (toString36_digits now1 ltac:(lia)) as (D1 & _).
  destruct (toString36_digits now2 ltac:(lia)) as (D2 & _).
  rewrite Hs, D2 in D1. lia.
Qed.

(** X21.  With clock readings between 36^7 and 36^8 milliseconds (the
    years 1972 to 2059), where [Date.now().toString(36)] has eight digits,
    two ids are the same only if the clock readings are the same and the
    random parts agree after their first two code units: ids made in
    different milliseconds differ. *)
Theorem generateId_same_only_if (now1 now2 : Z) (random1 random2 : jsstring) :
  (36 ^ 7 <= now1 < 36 ^ 8)%Z ->
  (36 ^ 7 <= now2 < 36 ^ 8)%Z ->
  generateId now1 random1 = generateId now2 random2 <->
  now1 = now2 /\ substring 2 random1 = substring 2 random2.
Proof.
  intros H1 H2. split; [by apply generateId_inj |].
  intros [-> Hr]. unfold generateId. by rewrite Hr.
Qed.

End Ids.

(** * The claims *)

Section Claims.
Context {J : JSON}.

Lemma stored_written tasks w w' :
  save_answer w tasks = Accepted ->
  localStorage w' = written tasks (localStorage w) ->
  stored w' = Some (JSON_stringify (JArr tasks)).
Proof.
  intros Ha Hw. unfold stored. rewrite Hw. unfold written, save_answer in *.
  rewrite Ha. cbn [items]. apply lookup_insert_eq.
Qed.

Lemma map_id_toggle_first taskId ts :
  map id (toggle_first taskId ts) = map id ts
  /\ map text (toggle_first taskId ts) = map text ts
  /\ map createdAt (toggle_first taskId ts) = map createdAt ts.
Proof.
  induction ts as [| t ts (IH1 & IH2 & IH3)]; [done |].
  cbn [toggle_first]. case_bool_decide; cbn [map flip id text createdAt];
    repeat split; congruence.
Qed.

Lemma NoDup_map_id_filter (P : Task -> Prop) `{forall t, Decision (P t)} ts :
  NoDup (map id ts) -> NoDup (map id (filter P ts)).
Proof.
  induction ts as [| t ts IH]; [done |].
  cbn [map]. rewrite NoDup_cons. intros [Hnot Hnd]. rewrite filter_cons.
  destruct (decide (P t)); [| by apply IH].
  cbn [map]. apply NoDup_cons. split; [| by apply IH].
  intros Hin. apply Hnot.
  apply list_elem_of_In, in_map_iff in Hin as (t' & Ht' & Hin).
  apply list_elem_of_In, list_elem_of_filter in Hin as [_ Hin].
  apply list_elem_of_In, in_map_iff. exists t'. split; [done | by apply list_elem_of_In].
Qed.

(** A storage area has room for the text the script wrote into it. *)
Lemma room_for_own_text (w : World) (tasks : list JSValue) :
  stored w = Some (JSON_stringify (JArr tasks)) ->
  (forall n s, room (localStorage w) = Some n -> stored w = Some s ->
               (length s <= n)%nat) ->
  save_answer w tasks <> NoRoom.
Proof.
  intros Hs Hroom. unfold save_answer, answer.
  destruct (accessible (localStorage w)); [| done].
  destruct (room (localStorage w)) as [n |] eqn:Hn; [| done].
  specialize (Hroom n _ eq_refl Hs).
  by rewrite (proj2 (Nat.ltb_ge _ _)) by done.
Qed.

(** C8.  [loadTasks] returns the empty collection, without an exception,
    when the storage key is absent, when the stored text is not JSON, and
    when it is JSON for something that is not an array.  In each case
    nothing reaches the user: no alert is raised and the page, the input
    field and the storage are as before (a text that is not JSON is
    reported on the console only). *)
Theorem loadTasks_empty_collection (w : World) :
  (stored w = None
   \/ (exists s, stored w = Some s /\ JSON_parse s = None)
   \/ (exists s v, stored w = Some s /\ JSON_parse s = Some v
                   /\ forall l, v <> JArr l)) ->
  exists w',
    loadTasks w = Returns [] w'
    /\ alerts w' = alerts w
    /\ localStorage w' = localStorage w
    /\ taskList w' = taskList w /\ taskInput w' = taskInput w
    /\ totalTasks w' = totalTasks w /\ completedTasks w' = completedTasks w
    /\ pendingTasks w' = pendingTasks w.
Proof.
  intros H. rewrite loadTasks_cases.
  destruct (accessible (localStorage w)); [| by eexists; repeat split].
  destruct H as [-> | [(s & -> & Hp) | (s & v & -> & Hp & Hv)]].
  - by eexists; repeat split.
  - destruct s; rewrite ?Hp; by eexists; repeat split.
  - destruct s; rewrite ?Hp; [by eexists; repeat split |].
    destruct v; try (by eexists; repeat split). by destruct (Hv elements).
Qed.

(** C5.  For an input that trims to the empty string, and for an input
    whose trimmed form has more than 200 code units, [addTask] raises a
    notice -- one text for the first case, another for the second -- and
    changes nothing else: the storage is as before and no write was
    attempted (a refused write would have left an alert or a console
    entry), and the input field keeps its content. *)
Theorem addTask_rejects (w : World) (taskText : jsstring) (env : Readings) :
  trim taskText = [] \/ (200 < length (trim taskText))%nat ->
  exists w',
    addTask taskText env w = Returns tt w'
    /\ alerts w'
       = alerts w ++ [if bool_decide (trim taskText = []) then MSG_EMPTY
                      else MSG_TOO_LONG]
    /\ MSG_EMPTY <> MSG_TOO_LONG
    /\ localStorage w' = localStorage w
    /\ console w' = console w
    /\ taskInput w' = taskInput w
    /\ taskList w' = taskList w.
Proof.
  intros [Hempty | Hlong].
  - rewrite addTask_empty by done. eexists. split; [reflexivity |].
    rewrite bool_decide_true by done. by repeat split.
  - rewrite addTask_too_long by done. eexists. split; [reflexivity |].
    rewrite bool_decide_false by (intros E; rewrite E in Hlong; cbn in Hlong; lia).
    by repeat split.
Qed.

Section ClaimsWithLaws.
Context {L : JSONLaws J}.

(** C4 (as amended).  [loadTasks] treats the stored text as absent data
    when it parses to something that is not an array; a text that parses to
    an array is returned as that array, whatever the shape of its
    elements. *)
Theorem loadTasks_returns_any_array (w : World) (s : jsstring) (v : JSValue) :
  accessible (localStorage w) = true ->
  stored w = Some s ->
  JSON_parse s = Some v ->
  exists w',
    loadTasks w = Returns (match v with JArr l => l | _ => [] end) w'
    /\ alerts w' = alerts w.
Proof.
  intros Ha Hs Hp. rewrite loadTasks_cases, Ha, Hs.
  destruct s as [| c s]; [by rewrite JSON_parse_empty in Hp |].
  rewrite Hp. destruct v; by eexists.
Qed.


(** C1 (as amended).  For an input whose trimmed form is not empty and
    has at most 200 code units, [addTask] appends one task to the end of
    the stored collection: its text is the trimmed input, it is not
    completed, its [createdAt] is the clock reading and its id is the one
    [generateId] makes from the clock reading and the random digits.  The
    tasks already present stay as they are and in their order, and the
    resulting collection is what the storage holds afterwards.  The id is
    not compared with the ids of the stored tasks: with clock readings of
    eight base-36 digits it is the id of a stored task exactly when that
    one was made from the same clock reading and the same random digits.
    (The storage is one that accepts the write.) *)
Theorem addTask_appends (w : World) (taskText : jsstring) (env : Readings)
    (ts : list Task) :
  trim taskText <> [] ->
  (length (trim taskText) <= 200)%nat ->
  loaded w = tasks_array ts ->
  save_answer w (tasks_array (ts ++ [new_task taskText env])) = Accepted ->
  exists w' t,
    addTask taskText env w = Returns tt w'
    /\ loaded w' = tasks_array (ts ++ [t])
    /\ stored w' = Some (JSON_stringify (JArr (tasks_array (ts ++ [t]))))
    /\ text t = trim taskText
    /\ completed t = false
    /\ createdAt t = now_in_addTask env
    /\ id t = generateId (now_in_generateId env) (random_toString36 env)
    /\ (forall (t0 : Task) (now0 : Z) (random0 : jsstring),
          t0 ∈ ts ->
          id t0 = generateId now0 random0 ->
          (36 ^ 7 <= now0 < 36 ^ 8)%Z ->
          (36 ^ 7 <= now_in_generateId env < 36 ^ 8)%Z ->
          (id t = id t0
           <-> now_in_generateId env = now0
               /\ substring 2 (random_toString36 env) = substring 2 random0)).
Proof.
  intros Hne Hlen Hl Ha.
  destruct (addTask_tasks taskText env ts w Hne Hlen Hl)
    as (w' & Hrun & Hst & _ & _ & Hl' & _).
  exists w', (new_task taskText env).
  split; [exact Hrun |].
  split; [by rewrite Hl', Ha |].
  split; [by eapply stored_written |].
  do 4 (split; [reflexivity |]).
  intros t0 now0 random0 _ Hid0 Hnow0 Hnow. cbn [new_task id]. rewrite Hid0.
  split; [by apply generateId_inj |].
  intros [-> Hr]. unfold generateId. by rewrite Hr.
Qed.

(** C2 (as amended).  When the storage refuses the write for lack of room,
    [addTask] raises the quota notice and leaves the storage as it was; the
    page is then drawn from the storage, so the list and the counters show
    the stored collection, without the new task. *)
Theorem addTask_quota_reached (w : World) (taskText : jsstring) (env : Readings)
    (ts : list Task) :
  trim taskText <> [] ->
  (length (trim taskText) <= 200)%nat ->
  loaded w = tasks_array ts ->
  save_answer w (tasks_array (ts ++ [new_task taskText env])) = NoRoom ->
  exists w',
    addTask taskText env w = Returns tt w'
    /\ alerts w' = alerts w ++ [MSG_QUOTA]
    /\ localStorage w' = localStorage w
    /\ loaded w' = tasks_array ts
    /\ displays w' ts.
Proof.
  intros Hne Hlen Hl Hno.
  destruct (addTask_tasks taskText env ts w Hne Hlen Hl)
    as (w' & Hrun & Hst & Ha & _ & Hl' & Hd).
  exists w'. split; [exact Hrun |].
  unfold alerts_after_save in Ha. rewrite Hno in Ha, Hl', Hd.
  rewrite written_refused in Hst by (unfold save_answer in Hno; by rewrite Hno).
  split; [exact Ha |]. split; [exact Hst |]. split; [exact Hl' | exact Hd].
Qed.

(** C6.  [deleteTask] stores the collection of the tasks whose id is not
    the given one: the other tasks are kept as they are, in the order they
    had.  (The storage is one that accepts the write.) *)
Theorem deleteTask_removes (w : World) (taskId : jsstring) (ts : list Task) :
  loaded w = tasks_array ts ->
  save_answer w (tasks_array (filter (fun t => id t <> taskId) ts)) = Accepted ->
  exists w' ts',
    deleteTask taskId w = Returns tt w'
    /\ loaded w' = tasks_array ts'
    /\ stored w' = Some (JSON_stringify (JArr (tasks_array ts')))
    /\ ts' = filter (fun t => id t <> taskId) ts
    /\ (forall t, t ∈ ts' <-> t ∈ ts /\ id t <> taskId)
    /\ ts' `sublist_of` ts.
Proof.
  intros Hl Ha.
  destruct (deleteTask_tasks taskId ts w Hl) as (w' & Hrun & Hst & _ & _ & Hl' & _).
  exists w', (filter (fun t => id t <> taskId) ts).
  split; [exact Hrun |].
  split; [by rewrite Hl', Ha |].
  split; [by eapply stored_written |].
  split; [done |].
  split; [| apply sublist_filter; apply _].
  intros t. rewrite list_elem_of_filter. tauto.
Qed.

(** C7.  When the collection has a task with the given id, [toggleTask]
    negates the [completed] flag of the first such task and changes nothing
    else -- the ids, the texts, the creation times, the other tasks and the
    order are kept -- and a second [toggleTask] with the same id gives the
    original collection back.  (The storage is one that accepts the
    writes.) *)
Theorem toggleTask_twice (w : World) (taskId : jsstring) (ts : list Task) :
  loaded w = tasks_array ts ->
  taskId ∈ map id ts ->
  save_answer w (tasks_array (toggle_first taskId ts)) = Accepted ->
  save_answer w (tasks_array ts) = Accepted ->
  exists w1 w2 ts1,
    toggleTask taskId w = Returns tt w1
    /\ toggleTask taskId w1 = Returns tt w2
    /\ loaded w1 = tasks_array ts1
    /\ loaded w2 = tasks_array ts
    /\ map id ts1 = map id ts
    /\ map text ts1 = map text ts
    /\ map createdAt ts1 = map createdAt ts
    /\ exists i t, ts !! i = Some t /\ id t = taskId
                   /\ (forall j t', ts !! j = Some t' -> (j < i)%nat -> id t' <> taskId)
                   /\ ts1 = <[i := flip t]> ts.
Proof.
  intros Hl Hin Ha1 Ha2.
  destruct (find_id_in taskId ts Hin) as (i & t & Hf).
  destruct (toggleTask_found taskId ts w i t Hl Hf)
    as (w1 & Hrun1 & Hst1 & _ & _ & Hl1 & _).
  rewrite Ha1 in Hl1. unfold kept in Hl1. rewrite bool_decide_true in Hl1 by done.
  destruct (map_id_toggle_first taskId ts) as (Hids & Htexts & Htimes).
  assert (Hin1 : taskId ∈ map id (toggle_first taskId ts)) by (by rewrite Hids).
  destruct (find_id_in taskId _ Hin1) as (i1 & t1 & Hf1).
  destruct (toggleTask_found taskId _ w1 i1 t1 Hl1 Hf1)
    as (w2 & Hrun2 & _ & _ & _ & Hl2 & _).
  rewrite toggle_first_twice in Hl2.
  assert (Hback : save_answer w1 (tasks_array ts) = Accepted).
  { unfold save_answer. by rewrite Hst1, answer_written. }
  rewrite Hback in Hl2. unfold kept in Hl2. rewrite bool_decide_true in Hl2 by done.
  exists w1, w2, (toggle_first taskId ts).
  repeat (split; [done |]).
  exists i, t. pose proof Hf as (Hi & Hid & Hfirst)%list_find_Some.
  split; [exact Hi |]. split; [exact Hid |]. split; [exact Hfirst |].
  by apply toggle_first_insert.
Qed.

(** C9.  With an id that no task of the collection has, [toggleTask] and
    [deleteTask] are silent: neither raises an exception, the stored
    collection is afterwards what it was, and no alert is raised.
    ([toggleTask] does not touch the storage at all.  [deleteTask] writes
    the same collection back; the storage area is one that has room for the
    collection it holds, see [room_for_own_text].) *)
Theorem missing_id_is_noop (w : World) (taskId : jsstring) (ts : list Task) :
  loaded w = tasks_array ts ->
  taskId ∉ map id ts ->
  save_answer w (tasks_array ts) <> NoRoom ->
  (exists w',
     toggleTask taskId w = Returns tt w'
     /\ localStorage w' = localStorage w
     /\ loaded w' = loaded w
     /\ alerts w' = alerts w)
  /\ (exists w',
        deleteTask taskId w = Returns tt w'
        /\ loaded w' = loaded w
        /\ alerts w' = alerts w).
Proof.
  intros Hl Hnot Hroom. split.
  - destruct (toggleTask_missing taskId ts w Hl (find_id_not_in _ _ Hnot)) as [c ->].
    eexists. split; [reflexivity |]. split; [reflexivity |].
    split; [by apply loaded_ext | reflexivity].
  - destruct (deleteTask_tasks taskId ts w Hl) as (w' & Hrun & _ & Ha & _ & Hl' & _).
    exists w'. split; [exact Hrun |].
    rewrite filter_id_not_in in Hl' by done.
    split.
    + rewrite Hl', Hl. unfold kept. by case_bool_decide.
    + rewrite Ha, filter_id_not_in by done. unfold alerts_after_save.
      by rewrite bool_decide_false.
Qed.

Lemma unique_ids_step (a : Action) (w : World) :
  unique_ids w ->
  match a with
  | Add _ env =>
      forall ts, loaded w = tasks_array ts ->
                 generateId (now_in_generateId env) (random_toString36 env) ∉ map id ts
  | _ => True
  end ->
  unique_ids (exec (perform a) w).
Proof.
  intros (ts & Hl & Hnd) Hfresh. unfold unique_ids.
  destruct a as [taskText env | taskId | taskId]; cbn [perform].
  - destruct (decide (trim taskText = [])) as [Hempty | Hne].
    { unfold exec. rewrite addTask_empty by done.
      exists ts. split; [| done]. rewrite <- Hl. by apply loaded_ext. }
    destruct (decide (200 < length (trim taskText))%nat) as [Hlong | Hlen].
    { unfold exec. rewrite addTask_too_long by done.
      exists ts. split; [| done]. rewrite <- Hl. by apply loaded_ext. }
    destruct (addTask_tasks taskText env ts w Hne ltac:(lia) Hl)
      as (w' & Hrun & _ & _ & _ & Hl' & _).
    unfold exec. rewrite Hrun. cbn [world_of].
    eexists. split; [exact Hl' |].
    unfold kept. case_bool_decide; [| done].
    rewrite map_app. apply NoDup_app. split; [done |]. split.
    + intros x Hx. cbn [map new_task id]. rewrite list_elem_of_singleton.
      intros ->. by apply (Hfresh ts Hl).
    + apply NoDup_singleton.
  - destruct (list_find (fun t => id t = taskId) ts) as [[i t] |] eqn:Hf.
    + destruct (toggleTask_found taskId ts w i t Hl Hf)
        as (w' & Hrun & _ & _ & _ & Hl' & _).
      unfold exec. rewrite Hrun. cbn [world_of].
      eexists. split; [exact Hl' |].
      unfold kept. case_bool_decide; [| done].
      by rewrite (proj1 (map_id_toggle_first taskId ts)).
    + destruct (toggleTask_missing taskId ts w Hl Hf) as [c Hrun].
      unfold exec. rewrite Hrun. cbn [world_of].
      exists ts. split; [| done]. rewrite <- Hl. by apply loaded_ext.
  - destruct (deleteTask_tasks taskId ts w Hl) as (w' & Hrun & _ & _ & _ & Hl' & _).
    unfold exec. rewrite Hrun. cbn [world_of].
    eexists. split; [exact Hl' |].
    unfold kept. case_bool_decide; [| done].
    by apply NoDup_map_id_filter.
Qed.

(** C3 (as amended).  Starting from a collection with pairwise distinct
    ids, the ids stay pairwise distinct after any sequence of [addTask],
    [toggleTask] and [deleteTask] in which every [addTask] generates an id
    that the collection does not contain at that moment; [toggleTask] and
    [deleteTask] never introduce a duplicate. *)
Theorem unique_ids_preserved (acts : list Action) : forall w : World,
  unique_ids w -> fresh_ids acts w -> unique_ids (run acts w).
Proof.
  induction acts as [| a acts IH]; intros w Hu Hf; [done |].
  cbn [run fresh_ids] in *. destruct Hf as [Hfa Hf].
  apply IH; [| done]. by apply unique_ids_step.
Qed.

End ClaimsWithLaws.

End Claims.

(** * The claims on concrete stores

    The theorems above, run with the reference engine, and the inputs on
    which five sentences of the specification fail. *)

Section Concrete.
Import RefFacts.

(** The scenario of the specification: add a task to an empty list, tick
    it, delete it. *)
Example scenario_add :
  let w := run [Add (lit "Buy milk") readings] (empty_world None) in
  loaded w = tasks_array [new_task (lit "Buy milk") readings]
  /\ totalTasks w = JNum (Fin 1) /\ completedTasks w = JNum (Fin 0)
  /\ pendingTasks w = JNum (Fin 1).
Proof. repeat split; vm_compute; reflexivity. Qed.

Example scenario_toggle :
  let w := run [Add (lit "Buy milk") readings; Toggle (lit "loyw3v284fzyo82mvyr")]
               (empty_world None) in
  totalTasks w = JNum (Fin 1) /\ completedTasks w = JNum (Fin 1)
  /\ pendingTasks w = JNum (Fin 0).
Proof. repeat split; vm_compute; reflexivity. Qed.

Example scenario_delete :
  let w := run [Add (lit "Buy milk") readings; Toggle (lit "loyw3v284fzyo82mvyr");
                Delete (lit "loyw3v284fzyo82mvyr")]
               (empty_world None) in
  loaded w = [] /\ taskList w = [EmptyState MSG_EMPTY_STATE].
Proof. repeat split; vm_compute; reflexivity. Qed.

(** An array with [null] in it cannot be drawn: reading [task.completed]
    throws, after the list was cleared. *)
Example render_null :
  exists w', renderTasks (world_storing (lit "[null]") None) = Throws TypeError w'
             /\ taskList w' = [].
Proof. eexists. split; vm_compute; reflexivity. Qed.

(** A full storage area takes a text that is not longer than the one it
    holds, and no other. *)
Example full_area :
  save_answer two_tasks_full (tasks_array [milk; bread]) = Accepted
  /\ save_answer two_tasks_full (tasks_array [bread]) = Accepted
  /\ save_answer two_tasks_full (tasks_array [milk; bread; milk]) = NoRoom.
Proof. repeat split; vm_compute; reflexivity. Qed.

Lemma loadTasks_empty_collection_witness :
  exists w',
    loadTasks (world_storing (lit "{}") None) = Returns [] w'
    /\ alerts w' = [] /\ localStorage w' = localStorage (world_storing (lit "{}") None)
    /\ taskList w' = [] /\ taskInput w' = lit "typed"
    /\ totalTasks w' = JUndefined /\ completedTasks w' = JUndefined
    /\ pendingTasks w' = JUndefined.
Proof.
  apply (loadTasks_empty_collection (world_storing (lit "{}") None)).
  right. right. exists (lit "{}"), (JObj []).
  split; [vm_compute; reflexivity |]. split; [vm_compute; reflexivity |].
  intros l. discriminate.
Defined.

(** C4, as stated, fails: the stored text [[1]] does not have the
    documented layout, and [loadTasks] returns the array it denotes. *)
Lemma array_of_numbers_is_returned :
  ~ mismatch_is_absent (world_storing (lit "[1]") None).
Proof.
  intros H.
  specialize (H (lit "[1]") (JArr [JNum (Fin 1)])).
  assert (Hl : loaded (world_storing (lit "[1]") None) = [JNum (Fin 1)])
    by (vm_compute; reflexivity).
  rewrite Hl in H. discriminate H; vm_compute; reflexivity.
Qed.

Lemma loadTasks_returns_any_array_witness :
  exists w',
    loadTasks (world_storing (lit "[1]") None) = Returns [JNum (Fin 1)] w'
    /\ alerts w' = [].
Proof.
  apply (loadTasks_returns_any_array (world_storing (lit "[1]") None)
           (lit "[1]") (JArr [JNum (Fin 1)])).
  - reflexivity.
  - vm_compute; reflexivity.
  - vm_compute; reflexivity.
Defined.



(** C1, as stated, fails: the id that [addTask] gives to the new task is
    not fresh when a stored task was made from the same clock reading and
    the same random digits. *)
Lemma appended_id_is_in_use :
  ~ appends_fresh_id (lit "b") readings (run [Add (lit "a") readings] (empty_world None)).
Proof.
  intros H.
  destruct (H [new_task (lit "a") readings]) as (t & Hl & Hfresh);
    [vm_compute; reflexivity |].
  assert (Hrun : loaded (exec (addTask (lit "b") readings)
                              (run [Add (lit "a") readings] (empty_world None)))
                 = tasks_array ([new_task (lit "a") readings]
                                ++ [new_task (lit "b") readings]))
    by (vm_compute; reflexivity).
  rewrite Hrun in Hl. apply tasks_array_inj in Hl.
  apply app_inv_head in Hl. injection Hl as <-.
  apply Hfresh. apply list_elem_of_here.
Qed.

Lemma addTask_appends_witness :
  exists w' t,
    addTask eggs later_readings (run [Add (lit "Buy milk") readings] (empty_world None))
    = Returns tt w'
    /\ loaded w' = tasks_array ([new_task (lit "Buy milk") readings] ++ [t])
    /\ stored w'
       = Some (JSON_stringify
                 (JArr (tasks_array ([new_task (lit "Buy milk") readings] ++ [t]))))
    /\ text t = lit "Buy eggs"
    /\ completed t = false
    /\ createdAt t = 1700000000778%Z
    /\ id t = lit "loyw3vntk2j4h9x1m"
    /\ (forall (t0 : Task) (now0 : Z) (random0 : jsstring),
          t0 ∈ [new_task (lit "Buy milk") readings] ->
          id t0 = generateId now0 random0 ->
          (36 ^ 7 <= now0 < 36 ^ 8)%Z ->
          (36 ^ 7 <= 1700000000777 < 36 ^ 8)%Z ->
          (id t = id t0
           <-> 1700000000777%Z = now0
               /\ substring 2 (lit "0.k2j4h9x1m") = substring 2 random0)).
Proof.
  apply (addTask_appends (run [Add (lit "Buy milk") readings] (empty_world None))
           eggs later_readings [new_task (lit "Buy milk") readings]).
  - vm_compute. discriminate.
  - vm_compute. lia.
  - vm_compute. reflexivity.
  - vm_compute. reflexivity.
Defined.

(** C2, as stated, fails: after an [addTask] whose write was refused for
    lack of room, neither the list nor the counter shows the new task. *)
Lemma unsaved_task_is_not_shown :
  let w' := exec (addTask eggs readings) two_tasks_full in
  alerts w' = [MSG_QUOTA]
  /\ taskList w' = [task_item milk; task_item bread]
  /\ totalTasks w' = JNum (Fin 2)
  /\ ~ shows_unsaved_task eggs readings two_tasks_full.
Proof.
  assert (Hlist : taskList (exec (addTask eggs readings) two_tasks_full)
                  = [task_item milk; task_item bread]) by (vm_compute; reflexivity).
  split; [vm_compute; reflexivity |]. split; [exact Hlist |].
  split; [vm_compute; reflexivity |].
  intros H. destruct H as [Hin _]; [vm_compute; reflexivity |].
  rewrite Hlist in Hin. apply list_elem_of_In in Hin.
  vm_compute in Hin. destruct Hin as [E | [E | []]]; discriminate.
Qed.

Lemma addTask_quota_reached_witness :
  exists w',
    addTask eggs readings two_tasks_full = Returns tt w'
    /\ alerts w' = [] ++ [MSG_QUOTA]
    /\ localStorage w' = localStorage two_tasks_full
    /\ loaded w' = tasks_array [milk; bread]
    /\ displays w' [milk; bread].
Proof.
  apply (addTask_quota_reached two_tasks_full eggs readings [milk; bread]).
  - vm_compute. discriminate.
  - vm_compute. lia.
  - vm_compute. reflexivity.
  - vm_compute. reflexivity.
Defined.

Lemma addTask_rejects_witness :
  exists w',
    addTask [32; 0x3000; 9] readings (two_tasks None) = Returns tt w'
    /\ alerts w' = [] ++ [MSG_EMPTY]
    /\ MSG_EMPTY <> MSG_TOO_LONG
    /\ localStorage w' = localStorage (two_tasks None)
    /\ console w' = []
    /\ taskInput w' = lit "typed"
    /\ taskList w' = [].
Proof.
  apply (addTask_rejects (two_tasks None) [32; 0x3000; 9] readings).
  left. vm_compute. reflexivity.
Defined.

Lemma deleteTask_removes_witness :
  exists w' ts',
    deleteTask (lit "lq1") two_tasks_full = Returns tt w'
    /\ loaded w' = tasks_array ts'
    /\ stored w' = Some (JSON_stringify (JArr (tasks_array ts')))
    /\ ts' = filter (fun t => id t <> lit "lq1") [milk; bread]
    /\ (forall t, t ∈ ts' <-> t ∈ [milk; bread] /\ id t <> lit "lq1")
    /\ ts' `sublist_of` [milk; bread].
Proof.
  apply (deleteTask_removes two_tasks_full (lit "lq1") [milk; bread]).
  - vm_compute. reflexivity.
  - vm_compute. reflexivity.
Defined.

Lemma toggleTask_twice_witness :
  exists w1 w2 ts1,
    toggleTask (lit "lq2") (two_tasks None) = Returns tt w1
    /\ toggleTask (lit "lq2") w1 = Returns tt w2
    /\ loaded w1 = tasks_array ts1
    /\ loaded w2 = tasks_array [milk; bread]
    /\ map id ts1 = map id [milk; bread]
    /\ map text ts1 = map text [milk; bread]
    /\ map createdAt ts1 = map createdAt [milk; bread]
    /\ exists i t, [milk; bread] !! i = Some t /\ id t = lit "lq2"
                   /\ (forall j t', [milk; bread] !! j = Some t' -> (j < i)%nat
                                    -> id t' <> lit "lq2")
                   /\ ts1 = <[i := flip t]> [milk; bread].
Proof.
  apply (toggleTask_twice (two_tasks None) (lit "lq2") [milk; bread]).
  - vm_compute. reflexivity.
  - cbn [map]. apply list_elem_of_further, list_elem_of_here.
  - reflexivity.
  - reflexivity.
Defined.

Lemma missing_id_is_noop_witness :
  (exists w',
     toggleTask (lit "zz") two_tasks_full = Returns tt w'
     /\ localStorage w' = localStorage two_tasks_full
     /\ loaded w' = loaded two_tasks_full
     /\ alerts w' = [])
  /\ (exists w',
        deleteTask (lit "zz") two_tasks_full = Returns tt w'
        /\ loaded w' = loaded two_tasks_full
        /\ alerts w' = []).
Proof.
  apply (missing_id_is_noop two_tasks_full (lit "zz") [milk; bread]).
  - vm_compute. reflexivity.
  - intros Hin. apply list_elem_of_In in Hin.
    vm_compute in Hin. destruct Hin as [E | [E | []]]; discriminate.
  - vm_compute. discriminate.
Defined.

(** C3, as stated, fails: two [addTask] that read the same clock value and
    the same random value store two tasks with one id. *)
Lemma same_readings_same_id : ~ @ids_always_unique RefJSON.
Proof.
  intros H.
  specialize (H [Add (lit "a") readings; Add (lit "b") readings] (empty_world None)).
  destruct H as (ts & Hl & Hnd).
  { exists []. split; [vm_compute; reflexivity | constructor]. }
  assert (Hrun : loaded (run [Add (lit "a") readings; Add (lit "b") readings]
                             (empty_world None))
                 = tasks_array [new_task (lit "a") readings; new_task (lit "b") readings])
    by (vm_compute; reflexivity).
  rewrite Hrun in Hl. apply tasks_array_inj in Hl. subst ts.
  cbn [map] in Hnd. apply NoDup_cons in Hnd as [Hnot _].
  apply Hnot. apply list_elem_of_here.
Qed.

Lemma unique_ids_preserved_witness :
  unique_ids (run [Add eggs readings; Toggle (lit "lq1"); Delete (lit "lq2")]
                  (two_tasks None)).
Proof.
  apply (unique_ids_preserved
           [Add eggs readings; Toggle (lit "lq1"); Delete (lit "lq2")]
           (two_tasks None)).
  - exists [milk; bread]. split; [vm_compute; reflexivity |].
    cbn [map]. apply NoDup_cons. split.
    + intros Hin. apply list_elem_of_In in Hin.
      vm_compute in Hin. destruct Hin as [E | []]; discriminate.
    + apply NoDup_singleton.
  - cbn [fresh_ids]. split; [| done].
    intros ts Hl.
    assert (Hts : ts = [milk; bread]).
    { apply tasks_array_inj. rewrite <- Hl. vm_compute. reflexivity. }
    subst ts. intros Hin. apply list_elem_of_In in Hin.
    vm_compute in Hin. destruct Hin as [E | [E | []]]; discriminate.
Defined.

End Concrete.

(** * Further properties of the script *)

(** ** What a computation keeps, however it ends *)

Section Frames.
Context (R : World -> World -> Prop).
Hypothesis R_refl : forall w, R w w.
Hypothesis R_trans : forall w1 w2 w3, R w1 w2 -> R w2 w3 -> R w1 w3.

Lemma keeps_ret {A} (a : A) : keeps R (ret a).
Proof. intros w. apply R_refl. Qed.

Lemma keeps_throw {A} e : keeps R (@throw A e).
Proof. intros w. apply R_refl. Qed.

Lemma keeps_bind {A B} (c : JS A) (k : A -> JS B) :
  keeps R c -> (forall a, keeps R (k a)) -> keeps R (bind c k).
Proof.
  intros Hc Hk w. unfold exec, bind. specialize (Hc w). unfold exec in Hc.
  destruct (c w) as [a w' | e w']; [| done].
  eapply R_trans; [apply Hc | apply Hk].
Qed.

Lemma keeps_try_catch {A} (c : JS A) (h : ErrorName -> JS A) :
  keeps R c -> (forall e, keeps R (h e)) -> keeps R (try_catch c h).
Proof.
  intros Hc Hh w. unfold exec, try_catch. specialize (Hc w). unfold exec in Hc.
  destruct (c w) as [a w' | e w']; [done |].
  eapply R_trans; [apply Hc | apply Hh].
Qed.

Lemma keeps_get v k : keeps R (get v k).
Proof. intros w. destruct v; apply R_refl. Qed.

Lemma keeps_put v k x : keeps R (put v k x).
Proof. intros w. destruct v; apply R_refl. Qed.

Lemma keeps_filter {A} (p : A -> JS bool) l :
  (forall x, keeps R (p x)) -> keeps R (Array_filter p l).
Proof.
  intros Hp. induction l as [| x l IH]; [apply keeps_ret |].
  cbn [Array_filter]. apply keeps_bind; [apply Hp |]. intros keep.
  apply keeps_bind; [apply IH |]. intros rest. apply keeps_ret.
Qed.

Lemma keeps_find {A} (p : A -> JS bool) l :
  (forall x, keeps R (p x)) -> keeps R (Array_find p l).
Proof.
  intros Hp. unfold Array_find. generalize 0%nat.
  induction l as [| x l IH]; intros i; [apply keeps_ret |].
  cbn [Array_find_from]. apply keeps_bind; [apply Hp |]. intros found.
  destruct found; [apply keeps_ret | apply IH].
Qed.

Lemma keeps_forEach {A} (f : A -> JS unit) l :
  (forall x, keeps R (f x)) -> keeps R (Array_forEach f l).
Proof.
  intros Hf. induction l as [| x l IH]; [apply keeps_ret |].
  cbn [Array_forEach]. apply keeps_bind; [apply Hf | by intros _].
Qed.

End Frames.

(** Walk through a computation, leaving the goals about its primitive
    steps to [prim]. *)
Ltac keeps_walk refl trans prim :=
  repeat first
    [ match goal with |- forall _, _ => intro end
    | apply (keeps_bind _ trans)
    | apply (keeps_try_catch _ trans)
    | apply (keeps_ret _ refl)
    | apply (keeps_throw _ refl)
    | apply (keeps_get _ refl)
    | apply (keeps_put _ refl)
    | apply (keeps_filter _ refl trans)
    | apply (keeps_find _ refl trans)
    | apply (keeps_forEach _ refl trans)
    | prim
    | match goal with
      | |- keeps _ (match ?x with _ => _ end) => destruct x
      end ].

(** ** The storage outside the script's key *)

Section OnlyTheKey.
Context {J : JSON}.

Lemma key_refl w : same_but_key w w.
Proof. by repeat split. Qed.

Lemma key_trans w1 w2 w3 :
  same_but_key w1 w2 -> same_but_key w2 w3 -> same_but_key w1 w3.
Proof.
  intros (Hk & Hr & Ha & Hs) (Hk' & Hr' & Ha' & Hs').
  repeat split; [| congruence | congruence | auto].
  intros k Hne. rewrite Hk', Hk; done.
Qed.

Lemma key_getItem k : keeps same_but_key (getItem k).
Proof. intros w. unfold exec, getItem. destruct (accessible _); apply key_refl. Qed.

Lemma key_setItem v : keeps same_but_key (setItem STORAGE_KEY v).
Proof.
  intros w. unfold exec, setItem.
  destruct (answer (localStorage w) v); try apply key_refl.
  unfold same_but_key.
  cbn [world_of localStorage with_localStorage items room accessible].
  repeat split.
  - intros k Hne. by rewrite lookup_insert_ne.
  - intros _. rewrite lookup_insert_eq. by eexists.
Qed.

Lemma key_alert m : keeps same_but_key (alert m).
Proof. intros w. by repeat split. Qed.

Lemma key_console_error m e : keeps same_but_key (console_error m e).
Proof. intros w. by repeat split. Qed.

Lemma key_clear_taskList : keeps same_but_key clear_taskList.
Proof. intros w. by repeat split. Qed.

Lemma key_appendChild e : keeps same_but_key (appendChild e).
Proof. intros w. by repeat split. Qed.

Lemma key_show_stats t c p : keeps same_but_key (show_stats t c p).
Proof. intros w. by repeat split. Qed.

Lemma key_set_taskInput s : keeps same_but_key (set_taskInput s).
Proof. intros w. by repeat split. Qed.

Create HintDb key_frame.
#[local] Hint Resolve key_getItem key_setItem key_alert key_console_error
  key_clear_taskList key_appendChild key_show_stats key_set_taskInput : key_frame.

Ltac key_walk := keeps_walk key_refl key_trans ltac:(solve [auto 1 with key_frame]).

Lemma key_loadTasks : keeps same_but_key loadTasks.
Proof. unfold loadTasks. key_walk. Qed.

Lemma key_saveTasks tasks : keeps same_but_key (saveTasks tasks).
Proof. unfold saveTasks. key_walk. Qed.

#[local] Hint Resolve key_loadTasks key_saveTasks : key_frame.

Lemma key_updateStats : keeps same_but_key updateStats.
Proof. unfold updateStats. key_walk. Qed.

Lemma key_renderTasks : keeps same_but_key renderTasks.
Proof.
  pose proof key_updateStats. unfold renderTasks, renderTaskItem. key_walk.
  all: done.
Qed.

#[local] Hint Resolve key_renderTasks : key_frame.

Lemma key_addTask taskText env : keeps same_but_key (addTask taskText env).
Proof. unfold addTask. key_walk. Qed.

Lemma key_toggleTask_of v : keeps same_but_key (toggleTask_of v).
Proof. unfold toggleTask_of, id_is. key_walk. Qed.

Lemma key_deleteTask_of v : keeps same_but_key (deleteTask_of v).
Proof. unfold deleteTask_of, id_is_not. key_walk. Qed.

Lemma key_toggleTask taskId : keeps same_but_key (toggleTask taskId).
Proof. apply (key_toggleTask_of (JStr taskId)). Qed.

Lemma key_deleteTask taskId : keeps same_but_key (deleteTask taskId).
Proof. apply (key_deleteTask_of (JStr taskId)). Qed.

Lemma key_init b : keeps same_but_key (init b).
Proof. unfold init. key_walk. Qed.

End OnlyTheKey.

(** ** The page, and nothing but the page *)

Section OnlyThePage.
Context {J : JSON}.

Lemma page_refl w : same_but_page w w.
Proof. by repeat split. Qed.

Lemma page_trans w1 w2 w3 :
  same_but_page w1 w2 -> same_but_page w2 w3 -> same_but_page w1 w3.
Proof. intros (? & ? & ?) (? & ? & ?). repeat split; congruence. Qed.

Lemma page_getItem k : keeps same_but_page (getItem k).
Proof. intros w. unfold exec, getItem. destruct (accessible _); apply page_refl. Qed.

Lemma page_console_error m e : keeps same_but_page (console_error m e).
Proof. intros w. by repeat split. Qed.

Lemma page_clear_taskList : keeps same_but_page clear_taskList.
Proof. intros w. by repeat split. Qed.

Lemma page_appendChild e : keeps same_but_page (appendChild e).
Proof. intros w. by repeat split. Qed.

Lemma page_show_stats t c p : keeps same_but_page (show_stats t c p).
Proof. intros w. by repeat split. Qed.

Create HintDb page_frame.
#[local] Hint Resolve page_getItem page_console_error page_clear_taskList
  page_appendChild page_show_stats : page_frame.

Ltac page_walk := keeps_walk page_refl page_trans ltac:(solve [auto 1 with page_frame]).

Lemma page_loadTasks : keeps same_but_page loadTasks.
Proof. unfold loadTasks. page_walk. Qed.

#[local] Hint Resolve page_loadTasks : page_frame.

Lemma page_updateStats : keeps same_but_page updateStats.
Proof. unfold updateStats. page_walk. Qed.

Lemma page_renderTaskItem task : keeps same_but_page (renderTaskItem task).
Proof. unfold renderTaskItem. page_walk. Qed.

Lemma page_renderTasks : keeps same_but_page renderTasks.
Proof.
  pose proof page_updateStats. unfold renderTasks, renderTaskItem. page_walk.
  all: done.
Qed.

(** X1.  [loadTasks] always returns.  It leaves the storage, the alerts
    and the page as they are.  It writes one line on the console and
    returns the empty array exactly when the storage cannot be read (the
    line carries the storage's exception) or the stored text is not empty
    and not JSON (the line carries the [SyntaxError]); otherwise it writes
    nothing, and returns the stored array, or the empty array when the key
    is absent, the text is empty or the text denotes something that is not
    an array. *)
Theorem loadTasks_never_fails (w : World) :
  exists tasks w',
    loadTasks w = Returns tasks w'
    /\ localStorage w' = localStorage w /\ alerts w' = alerts w
    /\ taskList w' = taskList w /\ taskInput w' = taskInput w
    /\ totalTasks w' = totalTasks w /\ completedTasks w' = completedTasks w
    /\ pendingTasks w' = pendingTasks w
    /\ if accessible (localStorage w) then
         match stored w with
         | None | Some [] => tasks = [] /\ console w' = console w
         | Some s =>
             match JSON_parse s with
             | Some (JArr elements) => tasks = elements /\ console w' = console w
             | Some _ => tasks = [] /\ console w' = console w
             | None =>
                 tasks = []
                 /\ console w' = console w ++ [(MSG_LOAD_FAILED, SyntaxError)]
             end
         end
       else tasks = [] /\ console w' = console w ++ [(MSG_LOAD_FAILED, SecurityError)].
Proof.
  rewrite loadTasks_cases.
  destruct (accessible (localStorage w)).
  - destruct (stored w) as [[| c s] |].
    + eexists _, _. split; [reflexivity |]. by repeat split.
    + destruct (JSON_parse (c :: s)) as [[]|];
        eexists _, _; (split; [reflexivity |]); by repeat split.
    + eexists _, _. split; [reflexivity |]. by repeat split.
  - eexists _, _. split; [reflexivity |]. by repeat split.
Qed.

(** X2.  [saveTasks] always returns and leaves the page as it is.  When
    the storage takes the text, the text is what the key holds and nothing
    is reported; when there is no room, the storage is unchanged and the
    quota notice is raised; when the storage cannot be accessed, the
    storage is unchanged, no alert is raised and the failure is written on
    the console. *)
Theorem saveTasks_outcomes (tasks : list JSValue) (w : World) :
  exists w',
    saveTasks tasks w = Returns tt w'
    /\ taskList w' = taskList w /\ taskInput w' = taskInput w
    /\ totalTasks w' = totalTasks w /\ completedTasks w' = completedTasks w
    /\ pendingTasks w' = pendingTasks w
    /\ match save_answer w tasks with
       | Accepted =>
           stored w' = Some (JSON_stringify (JArr tasks))
           /\ alerts w' = alerts w /\ console w' = console w
       | NoRoom =>
           localStorage w' = localStorage w
           /\ alerts w' = alerts w ++ [MSG_QUOTA] /\ console w' = console w
       | Denied =>
           localStorage w' = localStorage w
           /\ alerts w' = alerts w
           /\ console w' = console w ++ [(MSG_SAVE_FAILED, SecurityError)]
       end.
Proof.
  rewrite saveTasks_cases. eexists. split; [reflexivity |].
  destruct (save_answer w tasks) eqn:Ha; repeat split.
  unfold stored, written. cbn [localStorage with_localStorage].
  unfold save_answer in Ha. rewrite Ha. cbn [items]. apply lookup_insert_eq.
Qed.

(** X3.  [renderTasks] never writes the storage, never raises an alert and
    never touches the input field, also when it is interrupted by an
    exception. *)
Theorem renderTasks_only_draws (w : World) :
  localStorage (exec renderTasks w) = localStorage w
  /\ alerts (exec renderTasks w) = alerts w
  /\ taskInput (exec renderTasks w) = taskInput w.
Proof. apply page_renderTasks. Qed.

(** X4.  On a collection of tasks [renderTasks] replaces whatever the list
    showed: afterwards the list has one item per stored task, in order (the
    placeholder when there is none), and the counters give the number of
    tasks, of completed tasks and their difference. *)
Theorem renderTasks_shows_storage (w : World) (ts : list Task) :
  loaded w = tasks_array ts ->
  exists w',
    renderTasks w = Returns tt w'
    /\ taskList w' = rendering ts
    /\ totalTasks w' = JNum (Fin (Z.of_nat (length ts)))
    /\ completedTasks w' = JNum (Fin (Z.of_nat (count_completed ts)))
    /\ pendingTasks w'
       = JNum (Fin (Z.of_nat (length ts) - Z.of_nat (count_completed ts)))
    /\ (count_completed ts <= length ts)%nat.
Proof.
  intros Hl. destruct (renderTasks_tasks ts w Hl) as [c ->].
  eexists. split; [reflexivity |]. repeat split.
  unfold count_completed. apply length_filter.
Qed.

End OnlyThePage.

(** ** Arrays whose elements are not tasks *)

Section AnyArray.
Context {J : JSON}.

Lemma forEach_app {A} (f : A -> JS unit) l1 l2 w :
  Array_forEach f (l1 ++ l2) w
  = match Array_forEach f l1 w with
    | Returns _ w' => Array_forEach f l2 w'
    | Throws e w' => Throws e w'
    end.
Proof.
  revert w. induction l1 as [| x l1 IH]; intros w; [reflexivity |].
  cbn [app Array_forEach]. unfold bind. destruct (f x w); [apply IH | done].
Qed.

Lemma get_without_properties v k w :
  has_properties v = false -> get v k w = Throws TypeError w.
Proof. by destruct v. Qed.

Lemma get_id_of v w :
  has_properties v = true -> get v (lit "id") w = Returns (id_of v) w.
Proof. by destruct v. Qed.

Lemma get_is_completed v w :
  has_properties v = true ->
  exists c, get v (lit "completed") w = Returns c w /\ truthy c = is_completed v.
Proof. destruct v; try done; intros _; by eexists. Qed.

(** [filter] with a callback that reads a property: it returns the
    elements the test keeps when every element has properties, and throws
    otherwise, in the world it started in. *)
Lemma filter_by_property (p : JSValue -> JS bool) (q : JSValue -> bool) l w :
  (forall x w, has_properties x = true -> p x w = Returns (q x) w) ->
  (forall x w, has_properties x = false -> p x w = Throws TypeError w) ->
  Array_filter p l w
  = if forallb has_properties l then Returns (List.filter q l) w
    else Throws TypeError w.
Proof.
  intros Hyes Hno. induction l as [| x l IH]; [reflexivity |].
  cbn [Array_filter forallb List.filter]. unfold bind.
  destruct (has_properties x) eqn:Hx.
  - rewrite Hyes by done. rewrite IH. cbn [andb].
    destruct (forallb has_properties l); [| done]. unfold ret. by destruct (q x).
  - by rewrite Hno.
Qed.

Lemma filter_other_id_any taskId l w :
  Array_filter (has_other_id taskId) l w
  = if forallb has_properties l
    then Returns (List.filter (fun t => negb (strict_eq (id_of t) (JStr taskId))) l) w
    else Throws TypeError w.
Proof.
  apply filter_by_property; intros x w' Hx; unfold has_other_id, bind.
  - by rewrite get_id_of.
  - by rewrite get_without_properties.
Qed.

Lemma filter_completed_any l w :
  Array_filter (fun t => let* c := get t (lit "completed") in ret (truthy c)) l w
  = if forallb has_properties l then Returns (List.filter is_completed l) w
    else Throws TypeError w.
Proof.
  apply filter_by_property; intros x w' Hx; unfold bind.
  - destruct (get_is_completed x w' Hx) as (c & -> & <-). done.
  - by rewrite get_without_properties.
Qed.

(** X5.  An array with an element that is [null] (or [undefined]) stops
    [renderTasks]: the items of the tasks before that element are drawn,
    a [TypeError] is thrown, and the counters keep their old values. *)
Theorem renderTasks_stops_at_null (w : World) (ts : list Task) (v : JSValue)
    (rest : list JSValue) :
  loaded w = tasks_array ts ++ v :: rest ->
  has_properties v = false ->
  exists w',
    renderTasks w = Throws TypeError w'
    /\ taskList w' = map task_item ts
    /\ totalTasks w' = totalTasks w /\ completedTasks w' = completedTasks w
    /\ pendingTasks w' = pendingTasks w
    /\ localStorage w' = localStorage w /\ alerts w' = alerts w.
Proof.
  intros Hl Hv. destruct (loadTasks_run w) as [c Hc].
  unfold renderTasks. step Hc. erewrite bind_returns by reflexivity.
  rewrite Hl. rewrite length_app. cbn [length].
  replace (length (tasks_array ts) + S (length rest) =? 0)%nat with false
    by (symmetry; apply Nat.eqb_neq; lia).
  set (w1 := with_taskList [] (with_console c w)).
  assert (Hloop : Array_forEach
                    (fun task => let* taskElement := renderTaskItem task in
                                 appendChild taskElement)
                    (tasks_array ts ++ v :: rest) w1
                  = Throws TypeError (with_taskList (map task_item ts) w1)).
  { rewrite forEach_app, forEach_render. cbn [Array_forEach].
    erewrite bind_throws; [reflexivity |].
    unfold renderTaskItem. erewrite bind_throws; [reflexivity |].
    erewrite bind_throws; [reflexivity |].
    by apply get_without_properties. }
  erewrite bind_throws by apply Hloop.
  eexists. split; [reflexivity |]. by repeat split.
Qed.

(** X6.  When every element of the stored array has properties,
    [updateStats] sets the counters to the length of the array, to the
    number of elements whose [completed] is truthy, and to their
    difference, with 0 <= completed <= total.  When an element is [null]
    it throws a [TypeError] and sets nothing. *)
Theorem updateStats_counts (w : World) :
  exists w',
    if forallb has_properties (loaded w) then
      exists done : nat,
        updateStats w = Returns tt w'
        /\ done = length (List.filter is_completed (loaded w))
        /\ (done <= length (loaded w))%nat
        /\ totalTasks w' = JNum (Fin (Z.of_nat (length (loaded w))))
        /\ completedTasks w' = JNum (Fin (Z.of_nat done))
        /\ pendingTasks w' = JNum (Fin (Z.of_nat (length (loaded w) - done)))
    else
      updateStats w = Throws TypeError w'
      /\ totalTasks w' = totalTasks w /\ completedTasks w' = completedTasks w
      /\ pendingTasks w' = pendingTasks w.
Proof.
  destruct (loadTasks_run w) as [c Hc]. unfold updateStats.
  destruct (forallb has_properties (loaded w)) eqn:Hall.
  - eexists. exists (length (List.filter is_completed (loaded w))).
    step Hc. erewrite bind_returns
      by (rewrite filter_completed_any, Hall; reflexivity).
    split; [reflexivity |]. split; [reflexivity |].
    assert (Hle : (length (List.filter is_completed (loaded w)) <= length (loaded w))%nat).
    { clear. induction (loaded w) as [| x l IH]; cbn; [lia |].
      destruct (is_completed x); cbn; lia. }
    split; [exact Hle |]. cbn. repeat split. do 2 f_equal. lia.
  - eexists. step Hc. erewrite bind_throws
      by (rewrite filter_completed_any, Hall; reflexivity).
    by repeat split.
Qed.

(** X7.  Whatever the elements of the stored array are, as long as each
    has properties, [deleteTask] hands to the storage the array without the
    elements whose [id] is the given string: an element that is not a task
    is kept.  With [null] in the array it throws a [TypeError] before it
    writes or draws anything. *)
Theorem deleteTask_any_array (w : World) (taskId : jsstring) :
  if forallb has_properties (loaded w) then
    localStorage (exec (deleteTask taskId) w)
    = written (List.filter (fun t => negb (strict_eq (id_of t) (JStr taskId))) (loaded w))
              (localStorage w)
  else
    exists c, deleteTask taskId w = Throws TypeError (with_console c w).
Proof.
  destruct (loadTasks_run w) as [c Hc]. unfold deleteTask.
  destruct (forallb has_properties (loaded w)) eqn:Hall.
  - unfold exec. step Hc.
    erewrite bind_returns by (rewrite filter_other_id_any, Hall; reflexivity).
    set (kept_elements := List.filter _ _).
    rewrite (bind_returns _ _ _ _ _ (saveTasks_cases kept_elements (with_console c w))).
    set (w2 := match save_answer _ _ with Accepted => _ | NoRoom => _ | Denied => _ end).
    assert (Hw2 : localStorage w2 = written kept_elements (localStorage w)).
    { pose proof (saveTasks_storage kept_elements (with_console c w)) as Hs.
      unfold exec in Hs. by rewrite saveTasks_cases in Hs. }
    rewrite <- Hw2. apply (quiet_renderTasks w2).
  - exists c. step Hc.
    erewrite bind_throws by (rewrite filter_other_id_any, Hall; reflexivity).
    reflexivity.
Qed.

End AnyArray.

(** ** The operations on a collection of tasks, composed *)

Section Composition.
Context {J : JSON} {L : JSONLaws J}.

Lemma unlimited_accepts w tasks : unlimited w -> save_answer w tasks = Accepted.
Proof. intros [Ha Hr]. unfold save_answer, answer. by rewrite Ha, Hr. Qed.

Lemma unlimited_kept w w' : unlimited w -> same_but_key w w' -> unlimited w'.
Proof. intros [Ha Hr] (_ & Hr' & Ha' & _). split; congruence. Qed.

(** One operation on a collection of tasks: what is stored afterwards,
    whatever the storage answered, and what the page shows if the page
    showed the collection before. *)
Lemma perform_tasks (a : Action) (w : World) (ts : list Task) :
  loaded w = tasks_array ts ->
  exists w' ts',
    perform a w = Returns tt w'
    /\ loaded w' = tasks_array ts'
    /\ (ts' = step_tasks a ts \/ ts' = ts)
    /\ (unlimited w -> ts' = step_tasks a ts)
    /\ (displays w ts -> displays w' ts').
Proof.
  intros Hl. destruct a as [taskText env | taskId | taskId]; cbn [perform step_tasks].
  - case_bool_decide as Hvalid.
    + destruct Hvalid as [Hne Hlen].
      destruct (addTask_tasks taskText env ts w Hne Hlen Hl)
        as (w' & Hrun & _ & _ & _ & Hl' & Hd).
      exists w'. eexists. split; [exact Hrun |]. split; [exact Hl' |].
      split; [unfold kept; case_bool_decide; auto |].
      split; [| done].
      intros Hu. by rewrite (unlimited_accepts w _ Hu).
    + exists (with_alerts
                (alerts w ++ [if bool_decide (trim taskText = []) then MSG_EMPTY
                              else MSG_TOO_LONG]) w), ts.
      split.
      { destruct (decide (trim taskText = [])) as [He | Hne].
        - rewrite addTask_empty by done. by rewrite bool_decide_true.
        - rewrite addTask_too_long by (apply Nat.nlt_ge; intros ?; apply Hvalid; split; [done | lia]).
          by rewrite bool_decide_false. }
      split; [rewrite <- Hl; by apply loaded_ext |].
      split; [by right |]. split; [done |]. intros Hd. exact Hd.
  - destruct (list_find (fun t => id t = taskId) ts) as [[i t] |] eqn:Hf.
    + destruct (toggleTask_found taskId ts w i t Hl Hf)
        as (w' & Hrun & _ & _ & _ & Hl' & Hd).
      exists w'. eexists. split; [exact Hrun |]. split; [exact Hl' |].
      split; [unfold kept; case_bool_decide; auto |].
      split; [| done].
      intros Hu. by rewrite (unlimited_accepts w _ Hu).
    + destruct (toggleTask_missing taskId ts w Hl Hf) as [c Hrun].
      exists (with_console c w), ts. split; [exact Hrun |].
      split; [rewrite <- Hl; by apply loaded_ext |].
      rewrite toggle_first_none by done.
      split; [by right |]. split; [done |]. intros Hd. exact Hd.
  - destruct (deleteTask_tasks taskId ts w Hl) as (w' & Hrun & _ & _ & _ & Hl' & Hd).
    exists w'. eexists. split; [exact Hrun |]. split; [exact Hl' |].
    split; [unfold kept; case_bool_decide; auto |].
    split; [| done].
    intros Hu. by rewrite (unlimited_accepts w _ Hu).
Qed.

(** The stored collection follows the list operations when every write is
    accepted. *)
Lemma run_tasks_refined (acts : list Action) : forall (w : World) (ts : list Task),
  unlimited w ->
  loaded w = tasks_array ts ->
  loaded (run acts w) = tasks_array (run_tasks acts ts)
  /\ unlimited (run acts w)
  /\ (displays w ts -> displays (run acts w) (run_tasks acts ts)).
Proof.
  induction acts as [| a acts IH]; intros w ts Hu Hl; [done |].
  cbn [run run_tasks fold_left].
  destruct (perform_tasks a w ts Hl) as (w' & ts' & Hrun & Hl' & _ & Hstep & Hd).
  unfold exec. rewrite Hrun. cbn [world_of].
  rewrite (Hstep Hu) in Hl', Hd.
  destruct (IH w' (step_tasks a ts)) as (H1 & H2 & H3); [| exact Hl' |].
  - apply (unlimited_kept w); [done |].
    assert (Hk : same_but_key w (exec (perform a) w)).
    { destruct a; cbn [perform];
        [apply key_addTask | apply key_toggleTask | apply key_deleteTask]. }
    unfold exec in Hk. by rewrite Hrun in Hk.
  - split; [exact H1 |]. split; [exact H2 |]. intros Hd0. apply H3, Hd, Hd0.
Qed.

(** X8.  On a storage area without limit the script refines the list
    operations: after any sequence of [addTask], [toggleTask] and
    [deleteTask] the stored collection is the result of appending, of
    negating the flag of the first task with the id, and of filtering, in
    that sequence; and a page that showed the collection before shows the
    collection after. *)
Theorem run_refines_lists (acts : list Action) (w : World) (ts : list Task) :
  unlimited w ->
  loaded w = tasks_array ts ->
  loaded (run acts w) = tasks_array (run_tasks acts ts)
  /\ (displays w ts -> displays (run acts w) (run_tasks acts ts)).
Proof.
  intros Hu Hl. destruct (run_tasks_refined acts w ts Hu Hl) as (H1 & _ & H3).
  by split.
Qed.

Lemma filter_filter_id taskId (ts : list Task) :
  filter (fun t => id t <> taskId) (filter (fun t => id t <> taskId) ts)
  = filter (fun t => id t <> taskId) ts.
Proof.
  induction ts as [| t ts IH]; [done |].
  rewrite filter_cons. destruct (decide (id t <> taskId)) as [Hne | He]; [| done].
  rewrite filter_cons, decide_True by done. by rewrite IH.
Qed.

Lemma toggle_first_filtered a (ts : list Task) :
  toggle_first a (filter (fun t => id t <> a) ts) = filter (fun t => id t <> a) ts.
Proof.
  induction ts as [| t ts IH]; [done |].
  rewrite filter_cons. destruct (decide (id t <> a)); [| done].
  cbn [toggle_first]. rewrite bool_decide_false by done. by rewrite IH.
Qed.

Lemma toggle_filter_commute a b (ts : list Task) :
  filter (fun t => id t <> b) (toggle_first a ts)
  = toggle_first a (filter (fun t => id t <> b) ts).
Proof.
  induction ts as [| t ts IH]; [done |].
  cbn [toggle_first]. case_bool_decide as Ha.
  - rewrite !filter_cons. cbn [flip id].
    destruct (decide (id t <> b)) as [Hne | He].
    + cbn [toggle_first]. by rewrite bool_decide_true.
    + assert (b = a) as -> by (destruct (decide (id t = b)); [congruence | done]).
      by rewrite toggle_first_filtered.
  - rewrite !filter_cons. destruct (decide (id t <> b)); [| done].
    cbn [toggle_first]. rewrite bool_decide_false by done. by rewrite IH.
Qed.

(** X9.  On a storage area without limit, [toggleTask] and [deleteTask]
    can be applied in either order, whatever the two ids are: the stored
    collection is the same. *)
Theorem toggle_delete_commute (w : World) (ts : list Task) (a b : jsstring) :
  unlimited w ->
  loaded w = tasks_array ts ->
  loaded (run [Toggle a; Delete b] w) = loaded (run [Delete b; Toggle a] w).
Proof.
  intros Hu Hl.
  rewrite (proj1 (run_tasks_refined [Toggle a; Delete b] w ts Hu Hl)).
  rewrite (proj1 (run_tasks_refined [Delete b; Toggle a] w ts Hu Hl)).
  cbn [run_tasks fold_left step_tasks]. by rewrite toggle_filter_commute.
Qed.

(** X10.  On a storage area without limit, deleting the task that
    [addTask] has just added gives back the collection there was before,
    provided the generated id was not in use; and deleting twice is the
    same as deleting once. *)
Theorem delete_undoes_add (w : World) (ts : list Task) (taskText : jsstring)
    (env : Readings) :
  unlimited w ->
  loaded w = tasks_array ts ->
  generateId (now_in_generateId env) (random_toString36 env) ∉ map id ts ->
  loaded (run [Add taskText env;
               Delete (generateId (now_in_generateId env) (random_toString36 env))] w)
  = tasks_array ts
  /\ forall taskId,
       loaded (run [Delete taskId; Delete taskId] w) = loaded (run [Delete taskId] w).
Proof.
  intros Hu Hl Hfresh. split.
  - rewrite (proj1 (run_tasks_refined _ w ts Hu Hl)).
    cbn [run_tasks fold_left step_tasks]. f_equal.
    case_bool_decide.
    + rewrite filter_app, filter_id_not_in by done.
      rewrite filter_cons, decide_False by (intros Hne; by apply Hne).
      by rewrite filter_nil, app_nil_r.
    + by apply filter_id_not_in.
  - intros taskId.
    rewrite !(proj1 (run_tasks_refined _ w ts Hu Hl)).
    cbn [run_tasks fold_left step_tasks]. by rewrite filter_filter_id.
Qed.

(** ** The page and the listeners *)

Lemma rendering_lookup (ts : list Task) (row : nat) :
  rendering ts !! row
  = match ts with
    | [] => match row with O => Some (EmptyState MSG_EMPTY_STATE) | S _ => None end
    | _ => task_item <$> ts !! row
    end.
Proof.
  destruct ts as [| t ts]; [by destruct row |].
  unfold rendering. by rewrite list_lookup_fmap.
Qed.

Lemma change_row_tasks (w : World) (ts : list Task) (row : nat) :
  taskList w = rendering ts ->
  change_row row w
  = match ts !! row with
    | Some t => toggleTask (id t) w
    | None => Returns tt w
    end.
Proof.
  intros Hd. unfold change_row. rewrite Hd, rendering_lookup.
  destruct ts as [| t0 ts]; [by destruct row |].
  by destruct ((t0 :: ts) !! row).
Qed.

Lemma click_delete_row_tasks (w : World) (ts : list Task) (row : nat) :
  taskList w = rendering ts ->
  click_delete_row row w
  = match ts !! row with
    | Some t => deleteTask (id t) w
    | None => Returns tt w
    end.
Proof.
  intros Hd. unfold click_delete_row. rewrite Hd, rendering_lookup.
  destruct ts as [| t0 ts]; [by destruct row |].
  by destruct ((t0 :: ts) !! row).
Qed.

(** Each event is one of the three operations, or nothing. *)
Lemma handle_tasks (ev : Event) (w : World) (ts : list Task) :
  loaded w = tasks_array ts -> displays w ts ->
  handle ev w = Returns tt w
  \/ (exists s, handle ev w = Returns tt (with_taskInput s w))
  \/ exists a, handle ev w = perform a w.
Proof.
  intros Hl [Hd _]. destruct ev as [s | env | key env | row | row]; cbn [handle].
  - right. left. by exists s.
  - right. right. by exists (Add (taskInput w) env).
  - unfold taskInput_keypress. destruct (jsstring_eqb key (lit "Enter")).
    + right. right. by exists (Add (taskInput w) env).
    + by left.
  - rewrite (change_row_tasks w ts row Hd).
    destruct (ts !! row) as [t |]; [right; right; by exists (Toggle (id t)) | by left].
  - rewrite (click_delete_row_tasks w ts row Hd).
    destruct (ts !! row) as [t |]; [right; right; by exists (Delete (id t)) | by left].
Qed.

(** X11.  Once [init] has run on a collection of tasks, the page shows the
    stored collection, and it does so after every event the listeners
    handle -- also when the storage refused a write or a text was
    rejected: list and counters never differ from what is stored. *)
Theorem page_shows_storage (evs : list Event) (b : bool) (w : World) (ts : list Task) :
  loaded w = tasks_array ts ->
  consistent (session evs (exec (init b) w)).
Proof.
  intros Hl.
  assert (Hinit : consistent (exec (init b) w)).
  { unfold init, exec.
    set (w0 := if b then with_alerts (alerts w ++ [MSG_NO_STORAGE]) w else w).
    assert (H0 : (if b then alert MSG_NO_STORAGE else ret tt) w = Returns tt w0)
      by (by destruct b).
    step H0.
    assert (Hl0 : loaded w0 = tasks_array ts)
      by (rewrite <- Hl; apply loaded_ext; by destruct b).
    destruct (renderTasks_tasks ts w0 Hl0) as [c ->].
    exists ts. split; [rewrite <- Hl0; by apply loaded_ext | by repeat split]. }
  clear Hl. generalize dependent (exec (init b) w). clear w ts.
  induction evs as [| ev evs IH]; intros w Hc; [done |].
  cbn [session]. apply IH. destruct Hc as (ts & Hl & Hd).
  destruct (handle_tasks ev w ts Hl Hd) as [Hnone | [[s Hs] | [a Ha]]].
  - unfold exec. rewrite Hnone. by exists ts.
  - unfold exec. rewrite Hs. exists ts.
    split; [rewrite <- Hl; by apply loaded_ext | exact Hd].
  - destruct (perform_tasks a w ts Hl) as (w' & ts' & Hrun & Hl' & _ & _ & Hd').
    unfold exec. rewrite Ha, Hrun. exists ts'. auto.
Qed.

Lemma filter_is_delete (ts : list Task) : forall (row : nat) (t : Task),
  NoDup (map id ts) -> ts !! row = Some t ->
  filter (fun t' => id t' <> id t) ts = delete row ts.
Proof.
  induction ts as [| t0 ts IH]; intros row t Hnd Hrow; [done |].
  cbn [map] in Hnd. apply NoDup_cons in Hnd as [Hnot Hnd].
  rewrite filter_cons. destruct row as [| row]; cbn in Hrow.
  - injection Hrow as ->. rewrite decide_False by (intros Hne; by apply Hne).
    cbn. apply filter_id_not_in. done.
  - rewrite decide_True.
    + cbn. f_equal. by apply IH.
    + intros He. apply Hnot. rewrite He.
      apply list_elem_of_In, in_map_iff. exists t.
      split; [done |]. apply list_elem_of_In. by eapply list_elem_of_lookup_2.
Qed.

Lemma find_is_row (ts : list Task) (row : nat) (t : Task) :
  NoDup (map id ts) -> ts !! row = Some t ->
  list_find (fun t' => id t' = id t) ts = Some (row, t).
Proof.
  intros Hnd Hrow. apply list_find_Some. split; [done |]. split; [done |].
  intros j y Hj Hlt He.
  assert (j = row); [| lia].
  eapply NoDup_lookup; [exact Hnd | |].
  - rewrite list_lookup_fmap, Hj. cbn. by rewrite He.
  - by rewrite list_lookup_fmap, Hrow.
Qed.

(** X12.  The delete control of a row deletes the task of that row and
    every other task with the same id; when the ids are pairwise distinct
    it removes exactly the task of the row.  (The storage is one that
    accepts the write.) *)
Theorem delete_row_removes_row (w : World) (ts : list Task) (row : nat) (t : Task) :
  loaded w = tasks_array ts ->
  taskList w = rendering ts ->
  ts !! row = Some t ->
  save_answer w (tasks_array (filter (fun t' => id t' <> id t) ts)) = Accepted ->
  exists w',
    click_delete_row row w = Returns tt w'
    /\ loaded w' = tasks_array (filter (fun t' => id t' <> id t) ts)
    /\ displays w' (filter (fun t' => id t' <> id t) ts)
    /\ (NoDup (map id ts) -> filter (fun t' => id t' <> id t) ts = delete row ts).
Proof.
  intros Hl Hd Hrow Ha.
  rewrite (click_delete_row_tasks w ts row Hd), Hrow.
  destruct (deleteTask_tasks (id t) ts w Hl) as (w' & Hrun & _ & _ & _ & Hl' & Hd').
  rewrite Ha in Hl', Hd'. exists w'.
  split; [exact Hrun |]. split; [exact Hl' |]. split; [exact Hd' |].
  intros Hnd. by apply filter_is_delete.
Qed.

(** X13.  The checkbox of a row negates the flag of the first task that
    has the id of the task of that row; when the ids are pairwise distinct
    that is the task of the row, and no other task changes.  (The storage
    is one that accepts the write.) *)
Theorem change_row_flips_row (w : World) (ts : list Task) (row : nat) (t : Task) :
  loaded w = tasks_array ts ->
  taskList w = rendering ts ->
  ts !! row = Some t ->
  save_answer w (tasks_array (toggle_first (id t) ts)) = Accepted ->
  exists w',
    change_row row w = Returns tt w'
    /\ loaded w' = tasks_array (toggle_first (id t) ts)
    /\ displays w' (toggle_first (id t) ts)
    /\ (NoDup (map id ts) -> toggle_first (id t) ts = <[row := flip t]> ts).
Proof.
  intros Hl Hd Hrow Ha.
  rewrite (change_row_tasks w ts row Hd), Hrow.
  assert (Hin : id t ∈ map id ts).
  { apply list_elem_of_In, in_map_iff. exists t. split; [done |].
    apply list_elem_of_In. by eapply list_elem_of_lookup_2. }
  destruct (find_id_in _ _ Hin) as (i & t1 & Hf).
  destruct (toggleTask_found (id t) ts w i t1 Hl Hf)
    as (w' & Hrun & _ & _ & _ & Hl' & Hd').
  rewrite Ha in Hl', Hd'. exists w'.
  split; [exact Hrun |]. split; [exact Hl' |]. split; [exact Hd' |].
  intros Hnd. apply toggle_first_insert. by apply find_is_row.
Qed.



(** X16.  [init] draws the stored collection whether or not the browser
    has [Storage]; when it has not, the warning is raised first, once. *)
Theorem init_draws (w : World) (ts : list Task) (Storage_undefined : bool) :
  loaded w = tasks_array ts ->
  exists w',
    init Storage_undefined w = Returns tt w'
    /\ displays w' ts
    /\ alerts w' = alerts w ++ (if Storage_undefined then [MSG_NO_STORAGE] else [])
    /\ localStorage w' = localStorage w
    /\ taskInput w' = taskInput w.
Proof.
  intros Hl. unfold init.
  set (w0 := if Storage_undefined then with_alerts (alerts w ++ [MSG_NO_STORAGE]) w
             else w).
  assert (H0 : (if Storage_undefined then alert MSG_NO_STORAGE else ret tt) w
               = Returns tt w0) by (by destruct Storage_undefined).
  step H0.
  assert (Hl0 : loaded w0 = tasks_array ts)
    by (rewrite <- Hl; apply loaded_ext; by destruct Storage_undefined).
  destruct (renderTasks_tasks ts w0 Hl0) as [c ->].
  eexists. split; [reflexivity |]. split; [by repeat split |].
  subst w0. destruct Storage_undefined; cbn; by rewrite ?app_nil_r.
Qed.

End Composition.

(** ** What a session leaves alone *)

Section Sessions.
Context {J : JSON}.

Lemma notice_refl w : more_notices w w.
Proof. exists []. by rewrite app_nil_r. Qed.

Lemma notice_trans w1 w2 w3 :
  more_notices w1 w2 -> more_notices w2 w3 -> more_notices w1 w3.
Proof.
  intros (x & Hx & Fx) (y & Hy & Fy). exists (x ++ y).
  split; [by rewrite Hy, Hx, app_assoc | by apply Forall_app].
Qed.

Lemma notice_alert m :
  m ∈ [MSG_EMPTY; MSG_TOO_LONG; MSG_QUOTA; MSG_NO_STORAGE] ->
  keeps more_notices (alert m).
Proof. intros Hm w. exists [m]. split; [done | by apply Forall_singleton]. Qed.

Lemma notice_alert_empty : keeps more_notices (alert MSG_EMPTY).
Proof. apply notice_alert. apply list_elem_of_here. Qed.

Lemma notice_alert_too_long : keeps more_notices (alert MSG_TOO_LONG).
Proof. apply notice_alert. apply list_elem_of_further, list_elem_of_here. Qed.

Lemma notice_alert_quota : keeps more_notices (alert MSG_QUOTA).
Proof. apply notice_alert. do 2 apply list_elem_of_further. apply list_elem_of_here. Qed.

Lemma notice_alert_no_storage : keeps more_notices (alert MSG_NO_STORAGE).
Proof. apply notice_alert. do 3 apply list_elem_of_further. apply list_elem_of_here. Qed.

Lemma notice_getItem k : keeps more_notices (getItem k).
Proof. intros w. unfold exec, getItem. destruct (accessible _); apply notice_refl. Qed.

Lemma notice_setItem k v : keeps more_notices (setItem k v).
Proof.
  intros w. unfold exec, setItem.
  destruct (answer (localStorage w) v); try apply notice_refl.
  exists []. by rewrite app_nil_r.
Qed.

Lemma notice_console_error m e : keeps more_notices (console_error m e).
Proof. intros w. exists []. by rewrite app_nil_r. Qed.

Lemma notice_clear_taskList : keeps more_notices clear_taskList.
Proof. intros w. exists []. by rewrite app_nil_r. Qed.

Lemma notice_appendChild e : keeps more_notices (appendChild e).
Proof. intros w. exists []. by rewrite app_nil_r. Qed.

Lemma notice_show_stats t c p : keeps more_notices (show_stats t c p).
Proof. intros w. exists []. by rewrite app_nil_r. Qed.

Lemma notice_set_taskInput s : keeps more_notices (set_taskInput s).
Proof. intros w. exists []. by rewrite app_nil_r. Qed.

Create HintDb notice_frame.
#[local] Hint Resolve notice_alert_empty notice_alert_too_long notice_alert_quota
  notice_alert_no_storage notice_getItem notice_setItem notice_console_error
  notice_clear_taskList notice_appendChild notice_show_stats notice_set_taskInput
  : notice_frame.

Ltac notice_walk :=
  keeps_walk notice_refl notice_trans ltac:(solve [auto 1 with notice_frame]).

Lemma notice_loadTasks : keeps more_notices loadTasks.
Proof. unfold loadTasks. notice_walk. Qed.

Lemma notice_saveTasks tasks : keeps more_notices (saveTasks tasks).
Proof. unfold saveTasks. notice_walk. Qed.

#[local] Hint Resolve notice_loadTasks notice_saveTasks : notice_frame.

Lemma notice_updateStats : keeps more_notices updateStats.
Proof. unfold updateStats. notice_walk. Qed.

Lemma notice_renderTasks : keeps more_notices renderTasks.
Proof.
  pose proof notice_updateStats. unfold renderTasks, renderTaskItem. notice_walk.
  all: done.
Qed.

#[local] Hint Resolve notice_renderTasks : notice_frame.

Lemma notice_addTask taskText env : keeps more_notices (addTask taskText env).
Proof. unfold addTask. notice_walk. Qed.

Lemma notice_toggleTask_of v : keeps more_notices (toggleTask_of v).
Proof. unfold toggleTask_of, id_is. notice_walk. Qed.

Lemma notice_deleteTask_of v : keeps more_notices (deleteTask_of v).
Proof. unfold deleteTask_of, id_is_not. notice_walk. Qed.

Lemma notice_init b : keeps more_notices (init b).
Proof. unfold init. notice_walk. Qed.

(** Every listener keeps what [addTask], [toggleTask] and [deleteTask]
    keep. *)
Lemma keeps_handle (R : World -> World -> Prop) :
  (forall w, R w w) ->
  (forall w1 w2 w3, R w1 w2 -> R w2 w3 -> R w1 w3) ->
  (forall taskText env, keeps R (addTask taskText env)) ->
  (forall v, keeps R (toggleTask_of v)) ->
  (forall v, keeps R (deleteTask_of v)) ->
  (forall s, keeps R (set_taskInput s)) ->
  forall ev, keeps R (handle ev).
Proof.
  intros R_refl R_trans Ha Ht Hd Hs ev.
  destruct ev as [s | env | key env | row | row]; cbn [handle].
  - apply Hs.
  - intros w. apply Ha.
  - unfold taskInput_keypress. destruct (jsstring_eqb key (lit "Enter")).
    + intros w. apply Ha.
    + by apply keeps_ret.
  - intros w. unfold exec, change_row.
    destruct (taskList w !! row) as [[x | item] |]; try apply R_refl.
    unfold checkbox_change.
    apply (keeps_bind _ R_trans); [by apply keeps_get |].
    intros i. apply Ht.
  - intros w. unfold exec, click_delete_row.
    destruct (taskList w !! row) as [[x | item] |]; try apply R_refl.
    unfold deleteButton_click.
    apply (keeps_bind _ R_trans); [by apply keeps_get |].
    intros i. apply Hd.
Qed.

Lemma keeps_session (R : World -> World -> Prop) :
  (forall w, R w w) ->
  (forall w1 w2 w3, R w1 w2 -> R w2 w3 -> R w1 w3) ->
  (forall ev, keeps R (handle ev)) ->
  forall evs w, R w (session evs w).
Proof.
  intros R_refl R_trans Hh evs. induction evs as [| ev evs IH]; intros w; [apply R_refl |].
  cbn [session]. eapply R_trans; [apply Hh | apply IH].
Qed.

(** X17.  Whatever the user does on the page and however the storage
    answers, the script touches one key of the storage area: every other
    key keeps its value, the limit and the accessibility of the area are
    as they were, and the script's key, once set, is never removed.  The
    same holds for [init]. *)
Theorem session_touches_one_key (evs : list Event) (b : bool) (w : World) :
  same_but_key w (session evs w) /\ same_but_key w (exec (init b) w).
Proof.
  split; [| apply key_init].
  apply (keeps_session _ key_refl key_trans).
  apply (keeps_handle _ key_refl key_trans);
    [apply key_addTask | apply key_toggleTask_of | apply key_deleteTask_of
    | apply key_set_taskInput].
Qed.

(** X18.  The script never withdraws an alert and raises no alert but its
    four notices (empty input, input too long, storage full, no storage):
    an exception of the storage or of the page is never shown in an
    alert. *)
Theorem session_raises_known_notices (evs : list Event) (b : bool) (w : World) :
  more_notices w (session evs w) /\ more_notices w (exec (init b) w).
Proof.
  split; [| apply notice_init].
  apply (keeps_session _ notice_refl notice_trans).
  apply (keeps_handle _ notice_refl notice_trans);
    [apply notice_addTask | apply notice_toggleTask_of | apply notice_deleteTask_of
    | apply notice_set_taskInput].
Qed.

End Sessions.

(** ** The texts of the stored tasks *)

Section Texts.
Context {J : JSON} {L : JSONLaws J}.

Lemma trimStart_head s :
  match trimStart s with [] => True | c :: _ => is_white c = false end.
Proof.
  induction s as [| c s IH]; [done |]. cbn [trimStart].
  destruct (is_white c) eqn:E; [exact IH | exact E].
Qed.

Lemma trimStart_fixed s :
  match s with [] => True | c :: _ => is_white c = false end -> trimStart s = s.
Proof. destruct s as [| c s]; [done |]. cbn [trimStart]. by intros ->. Qed.

Lemma trimStart_split s : exists ws, s = ws ++ trimStart s.
Proof.
  induction s as [| c s [ws IH]]; [by exists [] |]. cbn [trimStart].
  destruct (is_white c); [| by exists []].
  exists (c :: ws). cbn. by rewrite <- IH.
Qed.

(** [trim] leaves a trimmed string as it is. *)
Lemma trim_idempotent s : trim (trim s) = trim s.
Proof.
  unfold trim, trimEnd.
  set (a := trimStart s). set (x := trimStart (rev a)).
  assert (Hx : trimStart x = x) by (apply trimStart_fixed, trimStart_head).
  assert (Hb : trimStart (rev x) = rev x).
  { apply trimStart_fixed. destruct (trimStart_split (rev a)) as [ws Hws].
    fold x in Hws.
    assert (Ha : a = rev x ++ rev ws)
      by (by rewrite <- rev_app_distr, <- Hws, rev_involutive).
    pose proof (trimStart_head s) as Hh. fold a in Hh. rewrite Ha in Hh.
    destruct (rev x); [done | exact Hh]. }
  rewrite Hb, rev_involutive. by rewrite Hx.
Qed.

Lemma valid_step (a : Action) (ts : list Task) :
  Forall (fun t => valid_text (text t)) ts ->
  Forall (fun t => valid_text (text t)) (step_tasks a ts).
Proof.
  intros Hts. destruct a as [taskText env | taskId | taskId]; cbn [step_tasks].
  - case_bool_decide as Hv; [| done]. destruct Hv as [Hne Hlen].
    apply Forall_app. split; [done |]. apply Forall_singleton.
    unfold valid_text, new_task. cbn [text].
    split; [done |]. split; [done | apply trim_idempotent].
  - induction Hts as [| t ts Ht Hts IH]; [done |].
    cbn [toggle_first]. case_bool_decide; by constructor.
  - induction Hts as [| t ts Ht Hts IH]; [done |].
    rewrite filter_cons. destruct (decide _); [by constructor | done].
Qed.

(** X19.  If every stored task has a text that is not empty, has at most
    200 code units and has no white space at either end, then so it is
    after any sequence of [addTask], [toggleTask] and [deleteTask],
    whatever the arguments and however the storage answers: [addTask]
    stores no other text. *)
Theorem stored_texts_stay_valid (acts : list Action) : forall w : World,
  valid_texts w -> valid_texts (run acts w).
Proof.
  induction acts as [| a acts IH]; intros w Hv; [done |].
  cbn [run fold_left]. apply IH. destruct Hv as (ts & Hl & Hts).
  destruct (perform_tasks a w ts Hl) as (w' & ts' & Hrun & Hl' & [-> | ->] & _).
  - unfold exec. rewrite Hrun. exists (step_tasks a ts).
    split; [exact Hl' | by apply valid_step].
  - unfold exec. rewrite Hrun. by exists ts.
Qed.

(** X20.  A store that [loadTasks] cannot read as an array -- text that is
    not JSON, or JSON that is not an array -- is replaced by the first
    [addTask] that the storage accepts: afterwards the key holds an array
    of one task, and the previous text is gone. *)
Theorem addTask_replaces_unreadable_store (w : World) (s : jsstring)
    (taskText : jsstring) (env : Readings) :
  stored w = Some s ->
  (forall elements, JSON_parse s <> Some (JArr elements)) ->
  trim taskText <> [] ->
  (length (trim taskText) <= 200)%nat ->
  save_answer w [task_object (new_task taskText env)] = Accepted ->
  stored (exec (addTask taskText env) w)
  = Some (JSON_stringify (JArr [task_object (new_task taskText env)])).
Proof.
  intros Hs Hparse Hne Hlen Ha.
  assert (Hl : loaded w = []).
  { rewrite loaded_cases, Hs. destruct (accessible _); [| done].
    destruct s as [| c s]; [done |].
    destruct (JSON_parse (c :: s)) as [[] |] eqn:E; try done.
    by destruct (Hparse elements). }
  unfold stored. rewrite (addTask_writes taskText env w Hne Hlen), Hl.
  cbn [app]. unfold written. unfold save_answer in Ha. rewrite Ha.
  cbn [items]. apply lookup_insert_eq.
Qed.

End Texts.

(** ** The further properties on the sample data *)

Section MoreConcrete.
Import RefFacts.

Lemma renderTasks_shows_storage_witness :
  exists w',
    renderTasks (two_tasks None) = Returns tt w'
    /\ taskList w' = rendering [milk; bread]
    /\ totalTasks w' = JNum (Fin (Z.of_nat (length [milk; bread])))
    /\ completedTasks w' = JNum (Fin (Z.of_nat (count_completed [milk; bread])))
    /\ pendingTasks w'
       = JNum (Fin (Z.of_nat (length [milk; bread])
                    - Z.of_nat (count_completed [milk; bread])))
    /\ (count_completed [milk; bread] <= length [milk; bread])%nat.
Proof.
  apply (renderTasks_shows_storage (two_tasks None) [milk; bread]).
  vm_compute. reflexivity.
Defined.

Lemma renderTasks_stops_at_null_witness :
  exists w',
    renderTasks null_between = Throws TypeError w'
    /\ taskList w' = map task_item [milk]
    /\ totalTasks w' = totalTasks null_between
    /\ completedTasks w' = completedTasks null_between
    /\ pendingTasks w' = pendingTasks null_between
    /\ localStorage w' = localStorage null_between
    /\ alerts w' = alerts null_between.
Proof.
  apply (renderTasks_stops_at_null null_between [milk] JNull [task_object bread]).
  - vm_compute. reflexivity.
  - reflexivity.
Defined.

Lemma run_refines_lists_witness :
  loaded (run [Add eggs readings; Toggle (lit "lq1"); Delete (lit "lq2")]
              two_tasks_drawn)
  = tasks_array (run_tasks [Add eggs readings; Toggle (lit "lq1"); Delete (lit "lq2")]
                           [milk; bread])
  /\ (displays two_tasks_drawn [milk; bread] ->
      displays (run [Add eggs readings; Toggle (lit "lq1"); Delete (lit "lq2")]
                    two_tasks_drawn)
               (run_tasks [Add eggs readings; Toggle (lit "lq1"); Delete (lit "lq2")]
                          [milk; bread])).
Proof.
  apply (run_refines_lists
           [Add eggs readings; Toggle (lit "lq1"); Delete (lit "lq2")]
           two_tasks_drawn [milk; bread]).
  - split; vm_compute; reflexivity.
  - vm_compute. reflexivity.
Defined.

Lemma toggle_delete_commute_witness :
  loaded (run [Toggle (lit "lq1"); Delete (lit "lq1")] (two_tasks None))
  = loaded (run [Delete (lit "lq1"); Toggle (lit "lq1")] (two_tasks None)).
Proof.
  apply (toggle_delete_commute (two_tasks None) [milk; bread] (lit "lq1") (lit "lq1")).
  - split; vm_compute; reflexivity.
  - vm_compute. reflexivity.
Defined.

Lemma delete_undoes_add_witness :
  loaded (run [Add eggs readings;
               Delete (generateId (now_in_generateId readings)
                                  (random_toString36 readings))] (two_tasks None))
  = tasks_array [milk; bread]
  /\ forall taskId,
       loaded (run [Delete taskId; Delete taskId] (two_tasks None))
       = loaded (run [Delete taskId] (two_tasks None)).
Proof.
  apply (delete_undoes_add (two_tasks None) [milk; bread] eggs readings).
  - split; vm_compute; reflexivity.
  - vm_compute. reflexivity.
  - intros Hin. apply list_elem_of_In in Hin.
    vm_compute in Hin. destruct Hin as [E | [E | []]]; discriminate.
Defined.

Lemma page_shows_storage_witness :
  consistent
    (session [ClickAdd readings; ChangeRow 0; ClickDeleteRow 1;
              TypeText eggs; Keypress (lit "Enter") readings]
             (exec (init true) (two_tasks None))).
Proof.
  apply (page_shows_storage
           [ClickAdd readings; ChangeRow 0; ClickDeleteRow 1;
            TypeText eggs; Keypress (lit "Enter") readings]
           true (two_tasks None) [milk; bread]).
  vm_compute. reflexivity.
Defined.

Lemma delete_row_removes_row_witness :
  exists w',
    click_delete_row 1 two_tasks_drawn = Returns tt w'
    /\ loaded w' = tasks_array (filter (fun t' => id t' <> id bread) [milk; bread])
    /\ displays w' (filter (fun t' => id t' <> id bread) [milk; bread])
    /\ (NoDup (map id [milk; bread]) ->
        filter (fun t' => id t' <> id bread) [milk; bread] = delete 1%nat [milk; bread]).
Proof.
  apply (delete_row_removes_row two_tasks_drawn [milk; bread] 1 bread).
  - vm_compute. reflexivity.
  - vm_compute. reflexivity.
  - reflexivity.
  - vm_compute. reflexivity.
Defined.

Lemma change_row_flips_row_witness :
  exists w',
    change_row 0 two_tasks_drawn = Returns tt w'
    /\ loaded w' = tasks_array (toggle_first (id milk) [milk; bread])
    /\ displays w' (toggle_first (id milk) [milk; bread])
    /\ (NoDup (map id [milk; bread]) ->
        toggle_first (id milk) [milk; bread] = <[0%nat := flip milk]> [milk; bread]).
Proof.
  apply (change_row_flips_row two_tasks_drawn [milk; bread] 0 milk).
  - vm_compute. reflexivity.
  - vm_compute. reflexivity.
  - reflexivity.
  - vm_compute. reflexivity.
Defined.



Lemma init_draws_witness :
  exists w',
    init true (two_tasks None) = Returns tt w'
    /\ displays w' [milk; bread]
    /\ alerts w' = alerts (two_tasks None) ++ [MSG_NO_STORAGE]
    /\ localStorage w' = localStorage (two_tasks None)
    /\ taskInput w' = taskInput (two_tasks None).
Proof.
  apply (init_draws (two_tasks None) [milk; bread] true).
  vm_compute. reflexivity.
Defined.

Lemma stored_texts_stay_valid_witness :
  valid_texts (run [Add eggs readings; Toggle (lit "lq1"); Delete (lit "lq2")]
                   (two_tasks None)).
Proof.
  apply (stored_texts_stay_valid
           [Add eggs readings; Toggle (lit "lq1"); Delete (lit "lq2")]
           (two_tasks None)).
  exists [milk; bread]. split; [vm_compute; reflexivity |].
  repeat constructor; try discriminate; vm_compute; first [lia | reflexivity].
Defined.

Lemma addTask_replaces_unreadable_store_witness :
  stored (exec (addTask eggs readings) (world_storing (lit "{}") None))
  = Some (JSON_stringify (JArr [task_object (new_task eggs readings)])).
Proof.
  apply (addTask_replaces_unreadable_store
           (world_storing (lit "{}") None) (lit "{}") eggs readings).
  - reflexivity.
  - intros elements. vm_compute. discriminate.
  - vm_compute. discriminate.
  - vm_compute. lia.
  - vm_compute. reflexivity.
Defined.

Lemma generateId_same_only_if_witness :
  generateId 1700000000000 (lit "0.4fzyo82mvyr")
  = generateId 1700000000001 (lit "0.4fzyo82mvyr")
  <-> 1700000000000%Z = 1700000000001%Z
      /\ substring 2 (lit "0.4fzyo82mvyr") = substring 2 (lit "0.4fzyo82mvyr").
Proof.
  apply (generateId_same_only_if 1700000000000 1700000000001
           (lit "0.4fzyo82mvyr") (lit "0.4fzyo82mvyr")).
  - lia.
  - lia.
Defined.

End MoreConcrete.
